(** * The GPO reference aggregate manager, API version 3 (geni/am/am3.py)

    A shallow embedding of [Slice], [ReferenceAggregateManager] and the
    public [AggregateManager] adapter, with the lease invariants, the
    status precedence, and the renewal and deletion behaviour proved on it.

    Conventions of the embedding.
    - A naive UTC [datetime] is the number of microseconds elapsed since
      [datetime.datetime.min]; the upper end of Python's range is not
      modelled.  [_naiveUTC] is the identity on such values.
    - [Resource] objects live in the aggregate's catalog and are shared by
      reference: a slice's [_resources] dict is modelled by its keys (the
      resource ids), and every mutation of a resource is an update of the
      catalog entry carrying that id.
    - The answers of the external collaborators are part of a call's input:
      the credential verifier ([None] when [verify_from_strings] raises,
      otherwise the expirations of the credentials it returns), the XML
      parser ([None] when [minidom.parseString] raises, otherwise the
      [client_id]s of the [node] elements in document order), the URN
      parser, and the clock ([datetime.datetime.utcnow()]).
    - A [%]-formatted message is kept as its template and its arguments. *)

From Stdlib Require Import NArith String Lia.
From stdpp Require Import base option list strings gmap fin_maps.

Local Open Scope string_scope.

(** Naive UTC instants, in microseconds since [datetime.datetime.min]. *)
Definition datetime : Type := N.

Definition datetime_min : datetime := 0%N.

(** [datetime.timedelta(seconds=s)] and [datetime.timedelta(days=d)]. *)
Definition timedelta_seconds (s : N) : N := (s * 1000000)%N.
Definition timedelta_days (d : N) : N := (d * 86400 * 1000000)%N.

Definition REFAM_MAXLEASE_DAYS : N := 365.
Definition ALLOCATE_EXPIRATION_SECONDS : N := (10 * 60)%N.

(** ** Resources *)

Module Resource.

(** Modelled from the spec: the status constants of class [Resource]
    (module [resource], not part of the sources): a resource is one of
    unconfigured, configuring, ready, failed, shutdown; [STATUS_UNKNOWN]
    is the constant [Slice.status] falls back to. *)
Inductive Status : Type :=
| STATUS_UNCONFIGURED
| STATUS_CONFIGURING
| STATUS_READY
| STATUS_FAILED
| STATUS_SHUTDOWN
| STATUS_UNKNOWN.

(** Modelled from the spec: the allocation-stage constants of class
    [Resource]: unallocated, allocated, provisioned. *)
Inductive State : Type :=
| STATE_GENI_UNALLOCATED
| STATE_GENI_ALLOCATED
| STATE_GENI_PROVISIONED.

#[global] Instance Status_eq_dec : EqDecision Status.
Proof. solve_decision. Defined.

#[global] Instance State_eq_dec : EqDecision State.
Proof. solve_decision. Defined.

(** The attributes am3.py reads and writes on a resource. *)
Record t : Type := mk
  { id : nat;
    external_id : option string;
    available : bool;
    status : Status;
    state : State }.

(** Modelled from the spec: [Resource.reset] (module [resource], not part
    of the sources) clears the binding fields and sets available=true,
    status=unconfigured, state=unallocated. *)
Definition reset (r : t) : t :=
  {| id := id r;
     external_id := None;
     available := true;
     status := STATUS_UNCONFIGURED;
     state := STATE_GENI_UNALLOCATED |}.

Definition set_external_id (v : string) (r : t) : t :=
  {| id := id r; external_id := Some v; available := available r;
     status := status r; state := state r |}.

Definition set_available (v : bool) (r : t) : t :=
  {| id := id r; external_id := external_id r; available := v;
     status := status r; state := state r |}.

Definition set_status (v : Status) (r : t) : t :=
  {| id := id r; external_id := external_id r; available := available r;
     status := v; state := state r |}.

Definition set_state (v : State) (r : t) : t :=
  {| id := id r; external_id := external_id r; available := available r;
     status := status r; state := v |}.

(** The object a reference (a resource id) points to. *)
Definition deref (heap : list t) (i : nat) : option t :=
  find (fun r => Nat.eqb (id r) i) heap.

(** In-place mutation of the object with id [i]. *)
Definition update (i : nat) (f : t -> t) (heap : list t) : list t :=
  map (fun r => if Nat.eqb (id r) i then f r else r) heap.

End Resource.

(** ** Slices *)

Module Slice.

(** [Slice.__init__]: a URN, an expiration and a dict of resources keyed
    by resource id (the uuid4 [id] of a slice is never read). *)
Record t : Type := mk
  { urn : string;
    expiration : datetime;
    _resources : list nat }.

Definition init (urn : string) (expiration : datetime) : t :=
  {| urn := urn; expiration := expiration; _resources := [] |}.

(** [self._resources[resource.id] = resource]: a key already present
    keeps its place. *)
Definition add_resource (self : t) (resource : nat) : t :=
  {| urn := urn self;
     expiration := expiration self;
     _resources := if decide (resource ∈ _resources self)
                   then _resources self
                   else _resources self ++ [resource] |}.

Definition set_expiration (v : datetime) (self : t) : t :=
  {| urn := urn self; expiration := v; _resources := _resources self |}.

(** [self._resources.values()] *)
Definition resources (heap : list Resource.t) (self : t) : list Resource.t :=
  omap (Resource.deref heap) (_resources self).

(** [Slice.status(self, resources)] *)
Definition status (heap : list Resource.t) (self : t)
    (resources_arg : list Resource.t) : Resource.Status :=
  let rstat := map Resource.status resources_arg in
  if decide (Resource.STATUS_SHUTDOWN ∈ rstat) then Resource.STATUS_SHUTDOWN
  else if decide (Resource.STATUS_FAILED ∈ rstat) then Resource.STATUS_FAILED
  else if decide (Resource.STATUS_CONFIGURING ∈ rstat)
       then Resource.STATUS_CONFIGURING
  else if decide (rstat = map (fun _ => Resource.STATUS_READY)
                              (resources heap self))
       then Resource.STATUS_READY
  else Resource.STATUS_UNKNOWN.

End Slice.


(** ** Result envelopes *)

(** The double quote character, for templates that contain one. *)
Definition dquote : string := String (Ascii.ascii_of_nat 34) EmptyString.

(** What the code may raise: the credential verifier rejecting the call,
    [urn.URN(urn=u)] rejecting a URN, a list index out of range, and the
    exception [ListResources] raises when compressing fails. *)
Inductive exn : Type :=
| VerifyError
| URNError
| IndexError
| ServerError.

(** Arguments of a [%]-format. *)
Inductive fmt_arg : Type :=
| AStr (s : string)
| ATime (t : datetime)
| ARepr (l : list string).

(** Texts: a template applied to its arguments, or [str(exception)]. *)
Inductive text : Type :=
| Fmt (template : string) (args : list fmt_arg)
| StrOfExn (e : exn).

(** The empty text. *)
Definition empty_text : text := Fmt EmptyString [].

#[global] Instance exn_eq_dec : EqDecision exn.
Proof. solve_decision. Defined.

#[global] Instance fmt_arg_eq_dec : EqDecision fmt_arg.
Proof. solve_decision. Defined.

#[global] Instance text_eq_dec : EqDecision text.
Proof. solve_decision. Defined.

(** The [code] dict; a key that is not set is [None]. *)
Record code_dict : Type := mk_code
  { geni_code : Z;
    am_type : string;
    am_code : option Z }.

(** One [node] element of an advertisement. *)
Record advert_node : Type := mk_advert
  { component_name : nat;
    exclusive : bool;
    available_now : bool }.

(** One entry of [geni_slivers]. *)
Record sliver_entry : Type := mk_sliver
  { geni_sliver : nat;
    geni_expires : datetime;
    geni_allocation_status : Resource.State }.

(** The operation-specific payloads. *)
Inductive value : Type :=
| VEmpty
| VBool (b : bool)
| VVersions (geni_api : Z) (rspec_type rspec_version : string)
| VAdvertisement (nodes : list advert_node) (compressed : bool)
| VAllocated (geni_rspec : list (option string))
             (geni_slivers : list sliver_entry)
| VStatus (geni_urn : string) (geni_status : Resource.Status)
          (geni_resources : list (nat * Resource.Status)).

(** The dict every operation returns. *)
Record envelope : Type := mk_envelope
  { code : code_dict;
    val : value;
    output : text }.

(** How a call of the delegate ends. *)
Inductive outcome : Type :=
| Return (e : envelope)
| Raise (e : exn).

(** The [options] of [ListResources], by the keys the code looks at:
    [geni_rspec_version] with its [type] and [version] when present,
    whether [geni_slice_urn] is present, and whether [geni_available] and
    [geni_compressed] are present and true.  [zlib_ok] is the answer of
    [base64.b64encode(zlib.compress(result))]: false when it raises. *)
Record list_options : Type := mk_options
  { geni_rspec_version : option (option string * option string);
    geni_slice_urn : bool;
    geni_available : bool;
    geni_compressed : bool;
    zlib_ok : bool }.

(** ** The delegate *)

Module ReferenceAggregateManager.

(** The slice registry and the aggregate's pool of resources, in the
    aggregate's enumeration order. *)
Record t : Type := mk
  { _slices : gmap string Slice.t;
    _agg : list Resource.t }.

Definition _api_version : Z := 3.
Definition _am_type : string := "gcf".

(** Modelled from the spec: [FakeVM()] (module [fakevm], not part of the
    sources) makes a resource with an id of its own that is available,
    unconfigured and unallocated, with no client id. *)
Definition FakeVM (rid : nat) : Resource.t :=
  {| Resource.id := rid;
     Resource.external_id := None;
     Resource.available := true;
     Resource.status := Resource.STATUS_UNCONFIGURED;
     Resource.state := Resource.STATE_GENI_UNALLOCATED |}.

(** [__init__]: no slice, and [FakeVM() for _ in range(3)] in the pool. *)
Definition init : t :=
  {| _slices := ∅; _agg := map FakeVM (seq 0 3) |}.

(** Modelled from the spec: [Aggregate.catalog] (module [aggregate], not
    part of the sources).  Without a container it enumerates the whole pool
    in its stable order; for a slice URN it gives the member resources of
    the slice registered under it, and nothing for an unknown URN. *)
Definition catalog (self : t) (container : option string) : list Resource.t :=
  match container with
  | None => _agg self
  | Some slice_urn =>
      match _slices self !! slice_urn with
      | Some s =>
          filter (fun r => Resource.id r ∈ Slice._resources s) (_agg self)
      | None => []
      end
  end.

(** Modelled from the spec: [Aggregate.deallocate] (module [aggregate], not
    part of the sources) gives a container's resources back to the pool;
    the attributes of the resources are cleared by [Resource.reset], which
    every caller runs on them right after. *)
Definition deallocate (heap : list Resource.t) (container : string)
    : list Resource.t :=
  heap.

Definition successResult (v : value) : envelope :=
  {| code := {| geni_code := 0; am_type := "gcf2"; am_code := Some 0%Z |};
     val := v;
     output := empty_text |}.

(** [errorResult(code, output, am_code=None)]: the [am_code] key is set
    only when one is given. *)
Definition errorResult (c : Z) (out : text) (amc : option Z) : envelope :=
  {| code := {| geni_code := c; am_type := "gcf2"; am_code := amc |};
     val := VEmpty;
     output := out |}.

Definition _no_such_slice (slice_urn : string) : envelope :=
  errorResult 12
    (Fmt ("Search Failed: no slice " ++ dquote ++ "%s" ++ dquote ++ " found")
         [AStr slice_urn])
    None.

(** [resources(available=None)] *)
Definition resources (self : t) (avail : option bool) : list Resource.t :=
  let result := catalog self None in
  match avail with
  | Some b => filter (fun r => Resource.available r = b) result
  | None => result
  end.

(** [for r in refs: f(r)], each [r] a reference into the heap. *)
Definition for_each (f : Resource.t -> Resource.t) (refs : list Resource.t)
    (heap : list Resource.t) : list Resource.t :=
  foldl (fun h r => Resource.update (Resource.id r) f h) heap refs.

(** The body run on a slice that goes away, in [expire_slices] and in
    [Delete]: deallocate, reset every resource of the slice, and delete the
    registry entry under [key].  [del] raises on a key that is not there;
    [Delete] has just looked the key up, and the sweep deletes the keys of
    registered slices, each once. *)
Definition release (self : t) (key : string) (s : Slice.t) : t :=
  let heap := deallocate (_agg self) key in
  {| _slices := delete key (_slices self);
     _agg := for_each Resource.reset (Slice.resources heap s) heap |}.

(** [expire_slices], with the clock's answer [now]. *)
Definition expire_slices (now : datetime) (self : t) : t :=
  let expired :=
    filter (fun s => (Slice.expiration s < now)%N)
           (map snd (map_to_list (_slices self))) in
  foldl (fun self s => release self (Slice.urn s) s) self expired.

(** The dict [GetVersion] returns carries [geni_api] beside the envelope
    members; the envelope members are kept. *)
Definition GetVersion (now : datetime) (self : t) : t * outcome :=
  let self := expire_slices now self in
  (self,
   Return {| code := {| geni_code := 0; am_type := _am_type;
                        am_code := Some 0%Z |};
             val := VVersions _api_version "geni" "3";
             output := empty_text |}).

Definition advert_resource (r : Resource.t) : advert_node :=
  {| component_name := Resource.id r;
     exclusive := false;
     available_now := Resource.available r |}.

Definition ListResources (now : datetime) (self : t)
    (creds : option (list datetime)) (options : list_options)
    : t * outcome :=
  let self := expire_slices now self in
  match creds with
  | None => (self, Raise VerifyError)
  | Some _ =>
    match geni_rspec_version options with
    | None =>
        (self, Return (errorResult 1
           (Fmt "Bad Arguments: option geni_rspec_version was not supplied." [])
           None))
    | Some (None, _) =>
        (self, Return (errorResult 1
           (Fmt "Bad Arguments: option geni_rspec_version does not have a type field." [])
           None))
    | Some (Some _, None) =>
        (self, Return (errorResult 1
           (Fmt "Bad Arguments: option geni_rspec_version does not have a version field." [])
           None))
    | Some (Some rspec_type, Some rspec_version) =>
      if decide (rspec_type ≠ "geni") then
        (self, Return (errorResult 4
           (Fmt "Bad Version: requested RSpec type %s is not a valid option."
                [AStr rspec_type]) None))
      else if decide (rspec_version ≠ "3") then
        (self, Return (errorResult 4
           (Fmt "Bad Version: requested RSpec version %s is not a valid option."
                [AStr rspec_type]) None))
      else if geni_slice_urn options then
        (self, Return (errorResult 1
           (Fmt ("Bad Arguments:"
                 ++ "option geni_slice_urn is no longer a supported option."
                 ++ " Use " ++ dquote ++ "Describe" ++ dquote ++ " instead.")
                []) None))
      else
        let all_resources := catalog self None in
        let shown :=
          filter (fun r => ¬ (geni_available options = true
                              ∧ Resource.available r = false))
                 all_resources in
        if geni_compressed options && negb (zlib_ok options) then
          (self, Raise ServerError)
        else
        (self,
         Return {| code := {| geni_code := 0; am_type := _am_type;
                              am_code := Some 0%Z |};
                   val := VAdvertisement (map advert_resource shown)
                                         (geni_compressed options);
                   output := empty_text |})
    end
  end.

(** The binding loop of [Allocate]: each requested node takes
    [available.pop(0)], which raises on an empty list. *)
Fixpoint bind (unbound : list string) (available : list Resource.t)
    (heap : list Resource.t) (resources : list nat)
    : option (list Resource.t * list nat) :=
  match unbound with
  | [] => Some (heap, resources)
  | client_id :: unbound' =>
      match available with
      | [] => None
      | resource :: available' =>
          bind unbound' available'
            (Resource.update (Resource.id resource)
               (fun r => Resource.set_available false
                           (Resource.set_external_id client_id r))
               heap)
            (resources ++ [Resource.id resource])
      end
  end.

(** The expiration loop of [Allocate]: every credential that expires
    earlier lowers the expiration. *)
Definition clamp (expiration : datetime) (creds : list datetime) : datetime :=
  foldl (fun expiration credexp =>
           if (credexp <? expiration)%N then credexp else expiration)
        expiration creds.

(** The loop of [Allocate] that fills the new slice. *)
Definition attach (resources : list nat) (newslice : Slice.t)
    (heap : list Resource.t) : Slice.t * list Resource.t :=
  foldl (fun acc resource =>
           (Slice.add_resource acc.1 resource,
            Resource.update resource
              (Resource.set_state Resource.STATE_GENI_ALLOCATED) acc.2))
        (newslice, heap) resources.

Definition manifest_slice (heap : list Resource.t) (s : Slice.t)
    : list (option string) :=
  map Resource.external_id (Slice.resources heap s).

Definition Allocate (now : datetime) (self : t) (slice_urn : string)
    (creds : option (list datetime)) (rspec : option (list string))
    : t * outcome :=
  let self := expire_slices now self in
  match creds with
  | None => (self, Raise VerifyError)
  | Some creds =>
    if decide (is_Some (_slices self !! slice_urn)) then
      (self, Return (errorResult 17
                       (Fmt "Slice %s already exists" [AStr slice_urn]) None))
    else
      match rspec with
      | None =>
          (self, Return (errorResult 1
                           (Fmt "Bad Args: RSpec is unparseable" []) None))
      | Some unbound =>
        let available := resources self (Some true) in
        if decide (length available < length unbound) then
          (self, Return (errorResult 6
             (Fmt "Too Big: insufficient resources to fulfill request" [])
             None))
        else
          match bind unbound available (_agg self) [] with
          | None => (self, Raise IndexError)
          | Some (heap, bound) =>
            let expiration :=
              clamp (now + timedelta_seconds ALLOCATE_EXPIRATION_SECONDS)%N
                    creds in
            let filled :=
              attach bound (Slice.init slice_urn expiration) heap in
            let newslice := filled.1 in
            let heap := filled.2 in
            let self' :=
              {| _slices := <[slice_urn := newslice]> (_slices self);
                 _agg := heap |} in
            let slivers :=
              map (fun r => {| geni_sliver := Resource.id r;
                               geni_expires := Slice.expiration newslice;
                               geni_allocation_status := Resource.state r |})
                  (Slice.resources heap newslice) in
            (self',
             Return {| code := {| geni_code := 0; am_type := _am_type;
                                  am_code := Some 0%Z |};
                       val := VAllocated (manifest_slice heap newslice)
                                         slivers;
                       output := empty_text |})
          end
      end
  end.

(** [Delete]; each URN comes with the type [urn.URN(urn=u).getType()]
    gives it, [None] when the URN is rejected. *)
Definition Delete (self : t) (urns : list (string * option string))
    (creds : option (list datetime)) : t * outcome :=
  match mapM snd urns with
  | None => (self, Raise URNError)
  | Some all_urn_types =>
    if decide (1 < length (remove_dups all_urn_types)) then
      (self, Return (errorResult 1
         (Fmt ("Bad Arguments: URN types cannot be mixed."
               ++ " Received types: %r") [ARepr all_urn_types]) None))
    else
      match all_urn_types, urns with
      | urn_type :: _, (slice_urn, _) :: _ =>
        if decide (urn_type = "sliver") then
          (self, Return (errorResult 5
             (Fmt ("Server Error: teach me how to"
                   ++ " delete individual slivers.") []) None))
        else
          match creds with
          | None => (self, Raise VerifyError)
          | Some _ =>
            match _slices self !! slice_urn with
            | Some theslice =>
              let resources := Slice.resources (_agg self) theslice in
              if decide (Slice.status (_agg self) theslice resources
                         = Resource.STATUS_SHUTDOWN) then
                (self, Return (errorResult 11
                   (Fmt "Unavailable: Slice %s is unavailable."
                        [AStr slice_urn]) None))
              else
                (release self slice_urn theslice,
                 Return (successResult (VBool true)))
            | None => (self, Return (_no_such_slice slice_urn))
            end
          end
      | _, _ => (self, Raise IndexError)
      end
  end.

Definition SliverStatus (self : t) (slice_urn : string)
    (creds : option (list datetime)) : t * outcome :=
  match creds with
  | None => (self, Raise VerifyError)
  | Some _ =>
    match _slices self !! slice_urn with
    | Some theSlice =>
      let resources := catalog self (Some slice_urn) in
      let res_status :=
        map (fun res => (Resource.id res, Resource.status res)) resources in
      (self,
       Return {| code := {| geni_code := 0; am_type := "gcf2";
                            am_code := Some 0%Z |};
                 val := VStatus slice_urn
                          (Slice.status (_agg self) theSlice resources)
                          res_status;
                 output := empty_text |})
    | None => (self, Return (_no_such_slice slice_urn))
    end
  end.

(** The credential loop of [RenewSliver]: [inl tt] when a credential
    reaches [requested], otherwise [inr] the value [maxexp] ends with. *)
Fixpoint renew_scan (creds : list datetime) (requested maxexp : datetime)
    : unit + datetime :=
  match creds with
  | [] => inr maxexp
  | credexp :: creds' =>
      let maxexp := if (maxexp <? credexp)%N then credexp else maxexp in
      let maxexp := credexp in
      if (requested <=? credexp)%N then inl tt
      else renew_scan creds' requested maxexp
  end.

(** [RenewSliver]; [expiration_time] is the instant the request's time
    string denotes. *)
Definition RenewSliver (self : t) (slice_urn : string)
    (creds : option (list datetime)) (expiration_time : datetime)
    : t * outcome :=
  match creds with
  | None => (self, Raise VerifyError)
  | Some creds =>
    match _slices self !! slice_urn with
    | Some sliver =>
      let resources := catalog self (Some slice_urn) in
      if decide (Slice.status (_agg self) sliver resources
                 = Resource.STATUS_SHUTDOWN) then
        (self, Return (errorResult 11
           (Fmt "Unavailable: Slice %s is unavailable." [AStr slice_urn])
           None))
      else
        let requested := expiration_time in
        match renew_scan creds requested datetime_min with
        | inl _ =>
            ({| _slices := <[slice_urn := Slice.set_expiration requested sliver]>
                             (_slices self);
                _agg := _agg self |},
             Return (successResult (VBool true)))
        | inr maxexp =>
            (self, Return (errorResult 19
               (Fmt "Out of range: Expiration %s is out of range (past last credential expiration of %s)."
                    [ATime expiration_time; ATime maxexp]) None))
        end
    | None => (self, Return (_no_such_slice slice_urn))
    end
  end.

Definition Shutdown (self : t) (slice_urn : string)
    (creds : option (list datetime)) : t * outcome :=
  match creds with
  | None => (self, Raise VerifyError)
  | Some _ =>
    if decide (is_Some (_slices self !! slice_urn)) then
      let resources := catalog self (Some slice_urn) in
      ({| _slices := _slices self;
          _agg := for_each (Resource.set_status Resource.STATUS_SHUTDOWN)
                           resources (_agg self) |},
       Return (successResult (VBool true)))
    else (self, Return (_no_such_slice slice_urn))
  end.

End ReferenceAggregateManager.

(** ** The public adapter *)

Module AggregateManager.

Definition _exception_result (exception : exn) : envelope :=
  {| code := {| geni_code := 102; am_type := "gcf3"; am_code := Some 0%Z |};
     val := VEmpty;
     output := StrOfExn exception |}.

(** [try: return self._delegate.Op(...) except Exception as e: return
    self._exception_result(e)] *)
Definition guarded (r : ReferenceAggregateManager.t * outcome)
    : ReferenceAggregateManager.t * envelope :=
  match r.2 with
  | Return e => (r.1, e)
  | Raise e => (r.1, _exception_result e)
  end.

Definition GetVersion (now : datetime) (delegate : ReferenceAggregateManager.t)
    : ReferenceAggregateManager.t * envelope :=
  guarded (ReferenceAggregateManager.GetVersion now delegate).

Definition ListResources (now : datetime)
    (delegate : ReferenceAggregateManager.t)
    (credentials : option (list datetime)) (options : list_options)
    : ReferenceAggregateManager.t * envelope :=
  guarded (ReferenceAggregateManager.ListResources now delegate credentials
             options).

Definition Allocate (now : datetime) (delegate : ReferenceAggregateManager.t)
    (slice_urn : string) (credentials : option (list datetime))
    (rspec : option (list string))
    : ReferenceAggregateManager.t * envelope :=
  guarded (ReferenceAggregateManager.Allocate now delegate slice_urn
             credentials rspec).

(** [DeleteSliver] maps to [Delete] on the one-element list. *)
Definition DeleteSliver (delegate : ReferenceAggregateManager.t)
    (slice_urn : string * option string)
    (credentials : option (list datetime))
    : ReferenceAggregateManager.t * envelope :=
  guarded (ReferenceAggregateManager.Delete delegate [slice_urn] credentials).

End AggregateManager.

(** ** Calls and runs *)

(** One call of the delegate, with the answers of its collaborators. *)
Inductive call : Type :=
| CallGetVersion
| CallListResources (creds : option (list datetime)) (options : list_options)
| CallAllocate (slice_urn : string) (creds : option (list datetime))
               (rspec : option (list string))
| CallDelete (urns : list (string * option string))
             (creds : option (list datetime))
| CallSliverStatus (slice_urn : string) (creds : option (list datetime))
| CallRenewSliver (slice_urn : string) (creds : option (list datetime))
                  (expiration_time : datetime)
| CallShutdown (slice_urn : string) (creds : option (list datetime)).

(** A call made when the clock shows [now]. *)
Definition perform (now : datetime) (c : call)
    (self : ReferenceAggregateManager.t)
    : ReferenceAggregateManager.t * outcome :=
  match c with
  | CallGetVersion => ReferenceAggregateManager.GetVersion now self
  | CallListResources creds options =>
      ReferenceAggregateManager.ListResources now self creds options
  | CallAllocate slice_urn creds rspec =>
      ReferenceAggregateManager.Allocate now self slice_urn creds rspec
  | CallDelete urns creds => ReferenceAggregateManager.Delete self urns creds
  | CallSliverStatus slice_urn creds =>
      ReferenceAggregateManager.SliverStatus self slice_urn creds
  | CallRenewSliver slice_urn creds expiration_time =>
      ReferenceAggregateManager.RenewSliver self slice_urn creds
        expiration_time
  | CallShutdown slice_urn creds =>
      ReferenceAggregateManager.Shutdown self slice_urn creds
  end.

(** The state a sequence of timed calls leaves. *)
Definition run (calls : list (datetime * call))
    (self : ReferenceAggregateManager.t) : ReferenceAggregateManager.t :=
  foldl (fun self tc => (perform tc.1 tc.2 self).1) self calls.

(** The timed call is an Allocate or a Delete. *)
Definition lease_call (tc : datetime * call) : Prop :=
  match tc.2 with
  | CallAllocate _ _ _ | CallDelete _ _ => True
  | _ => False
  end.

(** The operations the adapter exposes. *)
Inductive public_call : Type :=
| PublicGetVersion
| PublicListResources (credentials : option (list datetime))
                      (options : list_options)
| PublicAllocate (slice_urn : string) (credentials : option (list datetime))
                 (rspec : option (list string))
| PublicDeleteSliver (slice_urn : string * option string)
                     (credentials : option (list datetime)).

Definition serve (now : datetime) (c : public_call)
    (delegate : ReferenceAggregateManager.t)
    : ReferenceAggregateManager.t * envelope :=
  match c with
  | PublicGetVersion => AggregateManager.GetVersion now delegate
  | PublicListResources credentials options =>
      AggregateManager.ListResources now delegate credentials options
  | PublicAllocate slice_urn credentials rspec =>
      AggregateManager.Allocate now delegate slice_urn credentials rspec
  | PublicDeleteSliver slice_urn credentials =>
      AggregateManager.DeleteSliver delegate slice_urn credentials
  end.

(** What the delegate does behind a public call. *)
Definition delegated (now : datetime) (c : public_call)
    (delegate : ReferenceAggregateManager.t)
    : ReferenceAggregateManager.t * outcome :=
  match c with
  | PublicGetVersion => ReferenceAggregateManager.GetVersion now delegate
  | PublicListResources credentials options =>
      ReferenceAggregateManager.ListResources now delegate credentials options
  | PublicAllocate slice_urn credentials rspec =>
      ReferenceAggregateManager.Allocate now delegate slice_urn credentials
        rspec
  | PublicDeleteSliver slice_urn credentials =>
      ReferenceAggregateManager.Delete delegate [slice_urn] credentials
  end.

(** ** Predicates on states *)

(** Resource [i] is a key of the resource dict of the slice registered
    under [u]. *)
Definition bound_in (self : ReferenceAggregateManager.t) (u : string)
    (i : nat) : Prop :=
  ∃ s, ReferenceAggregateManager._slices self !! u = Some s
       ∧ i ∈ Slice._resources s.

(** The aggregated status of the slice registered under [u], over its own
    member resources. *)
Definition slice_status (self : ReferenceAggregateManager.t) (s : Slice.t)
    : Resource.Status :=
  Slice.status (ReferenceAggregateManager._agg self) s
    (Slice.resources (ReferenceAggregateManager._agg self) s).

(** [self.max_lease] *)
Definition max_lease : N := timedelta_days REFAM_MAXLEASE_DAYS.

(** A pool with two resources bound into slice a, which expires at 700,
    and one free resource. *)
Definition busy : ReferenceAggregateManager.t :=
  (ReferenceAggregateManager.Allocate 100%N ReferenceAggregateManager.init "a"
     (Some [700%N]) (Some ["x"; "y"])).1.

(** [busy] after slice a has been shut down. *)
Definition halted : ReferenceAggregateManager.t :=
  (ReferenceAggregateManager.Shutdown busy "a" (Some [])).1.

Module RAM := ReferenceAggregateManager.

(** The slices the sweep at [now] walks over. *)
Definition expired_slices (now : datetime) (self : RAM.t) : list Slice.t :=
  filter (fun s => (Slice.expiration s < now)%N)
         (map snd (map_to_list (RAM._slices self))).

(** Every registry entry sits under the URN of its slice. *)
Definition keyed (self : RAM.t) : Prop :=
  ∀ u s, RAM._slices self !! u = Some s → Slice.urn s = u.

(** An envelope the delegate returns is either a success envelope, with
    code 0, [am_code] 0 and no output, or an error envelope built by
    [errorResult], with a nonzero code, no [am_code] and no value. *)
Definition success_envelope (e : envelope) : Prop :=
  geni_code (code e) = 0%Z ∧ am_code (code e) = Some 0%Z
  ∧ output e = empty_text.

Definition error_envelope (e : envelope) : Prop :=
  geni_code (code e) ∈ [1; 4; 5; 6; 11; 12; 17; 19]%Z
  ∧ am_type (code e) = "gcf2" ∧ am_code (code e) = None ∧ val e = VEmpty.

(** The envelope the adapter makes from an exception: code 102, [am_code]
    0, no value, and the text of the exception as output. *)
Definition exception_envelope (e : envelope) : Prop :=
  geni_code (code e) = 102%Z ∧ am_type (code e) = "gcf3"
  ∧ am_code (code e) = Some 0%Z ∧ val e = VEmpty.

(** What the delegate may hand back: such an envelope, or an exception. *)
Definition outcome_shape (o : outcome) : Prop :=
  match o with
  | Return e => success_envelope e ∨ error_envelope e
  | Raise _ => True
  end.

(** The view of the pool that binding is about: the id and the
    availability of each resource, in pool order. *)
Definition shadow (heap : list Resource.t) : list (nat * bool) :=
  (fun r => (Resource.id r, Resource.available r)) <$> heap.

(** The view after the availability of the resources in [ids] is set to
    [b]. *)
Definition mark (b : bool) (ids : list nat) (sh : list (nat * bool))
    : list (nat * bool) :=
  (fun p => if decide (p.1 ∈ ids) then (p.1, b) else p) <$> sh.

(** The registry and the pool agree: entries sit under their URN, no
    resource is in two slices, and a resource is unavailable exactly when
    some slice has it. *)
Record consistent (self : ReferenceAggregateManager.t) : Prop :=
  { consistent_keyed : keyed self;
    consistent_disjoint :
      ∀ u1 u2 i, bound_in self u1 i → bound_in self u2 i → u1 = u2;
    consistent_available :
      ∀ i a, (i, a) ∈ shadow (ReferenceAggregateManager._agg self) →
             (a = false ↔ ∃ u, bound_in self u i) }.

(** A resource as [Resource.reset] leaves it. *)
Definition pristine (r : Resource.t) : Prop := Resource.reset r = r.

(** The ids of the resources held by the slices the sweep at [now] walks
    over. *)
Definition expired_ids (now : datetime) (self : RAM.t) : list nat :=
  expired_slices now self ≫= Slice._resources.

(** A resource as Allocate leaves it once it is bound for the node with
    [client_id]. *)
Definition allocated (client_id : string) (r : Resource.t) : Resource.t :=
  {| Resource.id := Resource.id r;
     Resource.external_id := Some client_id;
     Resource.available := false;
     Resource.status := Resource.status r;
     Resource.state := Resource.STATE_GENI_ALLOCATED |}.

(** The pool once the resources [ids] are bound, in this order, for the
    nodes [unbound]: each of them is [allocated] for its node, the others
    are as they were. *)
Definition bound_pool (ids : list nat) (unbound : list string)
    (heap : list Resource.t) : list Resource.t :=
  (fun r =>
     match (list_to_map (zip ids unbound) : gmap nat string) !! Resource.id r
     with
     | Some client_id => allocated client_id r
     | None => r
     end) <$> heap.

(** The state an operation starts its own work from: the swept state for
    the operations that call [expire_slices], the state as it is for the
    others. *)
Definition entry_state (now : datetime) (c : call) (self : RAM.t) : RAM.t :=
  match c with
  | CallGetVersion | CallListResources _ _ | CallAllocate _ _ _ =>
      RAM.expire_slices now self
  | _ => self
  end.

(** The call did not succeed: it raised, or it returned a nonzero code. *)
Definition failed (o : outcome) : Prop :=
  match o with
  | Return e => geni_code (code e) ≠ 0%Z
  | Raise _ => True
  end.

(** Every available resource of the pool is as [Resource.reset] leaves
    it. *)
Definition idle (self : RAM.t) : Prop :=
  ∀ r, r ∈ RAM._agg self → Resource.available r = true → pristine r.

(** ** Reading the configuration (geni/config.py) *)

Module config.

Definition GCF_CONFIG_FILE : string := "gcf_config".




End config.

(** Every registered slice holds resources of the pool [pool], each once. *)
Definition members_ok (pool : list nat) (self : RAM.t) : Prop :=
  ∀ u s, RAM._slices self !! u = Some s →
         NoDup (Slice._resources s) ∧ ∀ i, i ∈ Slice._resources s → i ∈ pool.

(** * Properties *)

(** ** Status precedence *)

Section StatusPrecedence.

Variable heap : list Resource.t.
Variable self : Slice.t.

Lemma all_ready_iff (l : list Resource.t) (k : list Resource.t) :
  length l = length k →
  map Resource.status l = map (fun _ => Resource.STATUS_READY) k
  ↔ Forall (fun r => Resource.status r = Resource.STATUS_READY) l.
Proof.
  revert k. induction l as [|r l IH]; intros [|r' k] Hlen; simpl in *;
    try discriminate.
  - split; [constructor | reflexivity].
  - injection Hlen as Hlen. specialize (IH k Hlen). split.
    + intros Heq. injection Heq as Hr Hl. constructor; [exact Hr | tauto].
    + intros Hall. inversion Hall as [|? ? Hr Hl]; subst.
      rewrite Hr. f_equal. tauto.
Qed.

Lemma status_shutdown_iff (resources_arg : list Resource.t) :
  Slice.status heap self resources_arg = Resource.STATUS_SHUTDOWN
  ↔ Resource.STATUS_SHUTDOWN ∈ map Resource.status resources_arg.
Proof.
  unfold Slice.status. repeat case_decide; split; intros; congruence.
Qed.

(** C4, as the code has it: over the member resources of a slice the
    status is shutdown if any member is shutdown; else failed if any member
    is failed; else configuring if any member is configuring; else ready if
    all members are ready and unknown otherwise.  A slice without members
    has all of them ready, so its status is ready. *)
Theorem status_precedence :
  let members := Slice.resources heap self in
  let rstat := map Resource.status members in
  let st := Slice.status heap self members in
  (Resource.STATUS_SHUTDOWN ∈ rstat → st = Resource.STATUS_SHUTDOWN)
  ∧ (Resource.STATUS_SHUTDOWN ∉ rstat → Resource.STATUS_FAILED ∈ rstat →
     st = Resource.STATUS_FAILED)
  ∧ (Resource.STATUS_SHUTDOWN ∉ rstat → Resource.STATUS_FAILED ∉ rstat →
     Resource.STATUS_CONFIGURING ∈ rstat →
     st = Resource.STATUS_CONFIGURING)
  ∧ (Resource.STATUS_SHUTDOWN ∉ rstat → Resource.STATUS_FAILED ∉ rstat →
     Resource.STATUS_CONFIGURING ∉ rstat →
     (Forall (fun r => Resource.status r = Resource.STATUS_READY) members →
      st = Resource.STATUS_READY)
     ∧ (¬ Forall (fun r => Resource.status r = Resource.STATUS_READY) members →
        st = Resource.STATUS_UNKNOWN))
  ∧ (members = [] → st = Resource.STATUS_READY).
Proof.
  intros members rstat st.
  assert (Hready :
    rstat = map (fun _ => Resource.STATUS_READY) (Slice.resources heap self)
    ↔ Forall (fun r => Resource.status r = Resource.STATUS_READY) members)
    by (apply all_ready_iff; reflexivity).
  subst st. unfold Slice.status. fold members. fold rstat.
  repeat split; intros; repeat case_decide; try tauto.
  all: exfalso; subst rstat;
    match goal with H : _ = []  |- _ => rewrite H in * end;
    simpl in *;
    try match goal with H : _ ∈ [] |- _ => inversion H end.
  congruence.
Qed.

End StatusPrecedence.

(** C4, as stated: a slice registered without any node has no member, and
    its status is ready, not unknown. *)
Lemma status_precedence_empty_not_unknown :
  let self := (RAM.Allocate 100%N RAM.init "e" (Some [700%N]) (Some [])).1 in
  ∃ s, RAM._slices self !! "e" = Some s
       ∧ Slice.resources (RAM._agg self) s = []
       ∧ slice_status self s = Resource.STATUS_READY
       ∧ slice_status self s ≠ Resource.STATUS_UNKNOWN.
Proof.
  eexists. split; [vm_compute; reflexivity |].
  split; [reflexivity |]. split; [reflexivity | discriminate].
Qed.

(** ** Renewal *)

Lemma renew_scan_found (creds : list datetime) (t m : datetime) :
  (∃ c, c ∈ creds ∧ (t ≤ c)%N) → RAM.renew_scan creds t m = inl tt.
Proof.
  revert m. induction creds as [|c creds IH]; intros m [c' [Hin Hle]].
  - inversion Hin.
  - simpl. destruct (N.leb_spec t c) as [Htc|Htc]; [reflexivity |].
    apply IH. apply elem_of_cons in Hin as [->|Hin]; [lia | eauto].
Qed.

Lemma renew_scan_none (creds : list datetime) (t m : datetime) :
  (∀ c, c ∈ creds → (c < t)%N) →
  RAM.renew_scan creds t m = inr (default m (last creds)).
Proof.
  revert m. induction creds as [|c creds IH]; intros m Hall; [reflexivity |].
  simpl. destruct (N.leb_spec t c) as [Htc|Htc].
  - specialize (Hall c ltac:(left)). lia.
  - rewrite IH by (intros; apply Hall; by right).
    rewrite last_cons. by destruct (last creds).
Qed.

Section Renew.

Variable self : RAM.t.
Variable slice_urn : string.
Variable sliver : Slice.t.
Variable creds : list datetime.
Variable t : datetime.

Hypothesis registered : RAM._slices self !! slice_urn = Some sliver.
Hypothesis not_shutdown :
  Slice.status (RAM._agg self) sliver (RAM.catalog self (Some slice_urn))
  ≠ Resource.STATUS_SHUTDOWN.

Lemma RenewSliver_commits :
  (∃ c, c ∈ creds ∧ (t ≤ c)%N) →
  RAM.RenewSliver self slice_urn (Some creds) t
  = ({| RAM._slices :=
          <[slice_urn := Slice.set_expiration t sliver]> (RAM._slices self);
        RAM._agg := RAM._agg self |},
     Return (RAM.successResult (VBool true))).
Proof.
  intros Hsome. unfold RAM.RenewSliver. rewrite registered.
  case_decide; [done |]. by rewrite renew_scan_found.
Qed.

Lemma RenewSliver_out_of_range :
  (∀ c, c ∈ creds → (c < t)%N) →
  RAM.RenewSliver self slice_urn (Some creds) t
  = (self,
     Return (RAM.errorResult 19
       (Fmt "Out of range: Expiration %s is out of range (past last credential expiration of %s)."
            [ATime t; ATime (default datetime_min (last creds))]) None)).
Proof.
  intros Hnone. unfold RAM.RenewSliver. rewrite registered.
  case_decide; [done |]. by rewrite renew_scan_none.
Qed.

End Renew.

(** C6: on a registered slice that is not shutdown, a renewal succeeds and
    stores the requested instant when some verified credential expires at
    or after it, and fails with code 19 (out of range) leaving the state as
    it was when every verified credential expires strictly before it. *)
Theorem renew_boundary (self : RAM.t) (slice_urn : string) (sliver : Slice.t)
    (creds : list datetime) (t : datetime) :
  RAM._slices self !! slice_urn = Some sliver →
  Slice.status (RAM._agg self) sliver (RAM.catalog self (Some slice_urn))
  ≠ Resource.STATUS_SHUTDOWN →
  ((∃ c, c ∈ creds ∧ (t ≤ c)%N) →
   ∃ self',
     RAM.RenewSliver self slice_urn (Some creds) t
     = (self', Return (RAM.successResult (VBool true)))
     ∧ Slice.expiration <$> RAM._slices self' !! slice_urn = Some t)
  ∧ ((∀ c, c ∈ creds → (c < t)%N) →
     ∃ out,
       RAM.RenewSliver self slice_urn (Some creds) t
       = (self, Return (RAM.errorResult 19 out None))
       ∧ Slice.expiration <$> RAM._slices self !! slice_urn
         = Some (Slice.expiration sliver)).
Proof.
  intros Hreg Hstatus. split.
  - intros Hsome. eexists. split.
    + by apply (RenewSliver_commits self slice_urn sliver).
    + simpl. by rewrite lookup_insert_eq.
  - intros Hnone. eexists. split.
    + by apply (RenewSliver_out_of_range self slice_urn sliver).
    + by rewrite Hreg.
Qed.

(** The renewals of slice a of [busy] with a credential expiring at 700:
    requested at 700 it succeeds, one microsecond later it fails. *)
Lemma renew_boundary_witness :
  (∃ self',
     RAM.RenewSliver busy "a" (Some [700%N]) 700%N
     = (self', Return (RAM.successResult (VBool true)))
     ∧ Slice.expiration <$> RAM._slices self' !! "a" = Some 700%N)
  ∧ (∃ out,
       RAM.RenewSliver busy "a" (Some [700%N]) 701%N
       = (busy, Return (RAM.errorResult 19 out None))
       ∧ Slice.expiration <$> RAM._slices busy !! "a" = Some 700%N).
Proof.
  split.
  - refine (proj1 (renew_boundary busy "a"
              (Slice.mk "a" 700%N [0; 1]) [700%N] 700%N _ _) _).
    + vm_compute; reflexivity.
    + vm_compute; discriminate.
    + exists 700%N. split; [by left | lia].
  - refine (proj2 (renew_boundary busy "a"
              (Slice.mk "a" 700%N [0; 1]) [700%N] 701%N _ _) _).
    + vm_compute; reflexivity.
    + vm_compute; discriminate.
    + intros c Hc. apply list_elem_of_singleton in Hc as ->. lia.
Defined.

(** ** The expiration sweep *)

Lemma map_fmap {A B : Type} (f : A → B) (l : list A) : map f l = f <$> l.
Proof. reflexivity. Qed.

(** The sweep only deletes registry entries: those under the URNs of the
    slices it walks over. *)
Lemma release_all_slices (l : list Slice.t) (self : RAM.t) :
  RAM._slices (foldl (fun self s => RAM.release self (Slice.urn s) s) self l)
  = foldl (fun m s => delete (Slice.urn s) m) (RAM._slices self) l.
Proof.
  revert self. induction l as [|s l IH]; intros self; [reflexivity |].
  simpl. by rewrite IH.
Qed.

Lemma delete_all_lookup (l : list Slice.t) (m : gmap string Slice.t)
    (k : string) :
  foldl (fun m s => delete (Slice.urn s) m) m l !! k
  = if decide (k ∈ Slice.urn <$> l) then None else m !! k.
Proof.
  revert m. induction l as [|s l IH]; intros m.
  - reflexivity.
  - cbn [foldl]. rewrite IH. rewrite fmap_cons.
    destruct (decide (k ∈ Slice.urn <$> l)) as [Hin|Hnin].
    + rewrite decide_True; [reflexivity | by right].
    + destruct (decide (k = Slice.urn s)) as [->|Hne].
      * rewrite decide_True by (by left). apply lookup_delete_eq.
      * rewrite decide_False.
        -- by apply lookup_delete_ne.
        -- intros [?|?]%elem_of_cons; done.
Qed.

Lemma expire_slices_unfold (now : datetime) (self : RAM.t) :
  RAM.expire_slices now self
  = foldl (fun self s => RAM.release self (Slice.urn s) s) self
          (expired_slices now self).
Proof. reflexivity. Qed.

Lemma elem_of_expired_slices (now : datetime) (self : RAM.t) (s : Slice.t) :
  s ∈ expired_slices now self
  ↔ (Slice.expiration s < now)%N ∧ ∃ u, RAM._slices self !! u = Some s.
Proof.
  unfold expired_slices. rewrite list_elem_of_filter, map_fmap.
  rewrite list_elem_of_fmap. split.
  - intros [Hlt [[u s'] [-> Hin]]]. split; [done |]. exists u.
    by apply elem_of_map_to_list in Hin.
  - intros [Hlt [u Hu]]. split; [done |]. exists (u, s). split; [done |].
    by apply elem_of_map_to_list.
Qed.

Lemma expire_slices_lookup (now : datetime) (self : RAM.t) (u : string) :
  keyed self →
  RAM._slices (RAM.expire_slices now self) !! u
  = match RAM._slices self !! u with
    | Some s => if decide (Slice.expiration s < now)%N then None else Some s
    | None => None
    end.
Proof.
  intros Hkey. rewrite expire_slices_unfold, release_all_slices.
  rewrite delete_all_lookup.
  destruct (RAM._slices self !! u) as [s|] eqn:Hu.
  - destruct (decide (Slice.expiration s < now)%N) as [Hlt|Hge].
    + rewrite decide_True; [reflexivity |].
      apply list_elem_of_fmap. exists s. split; [symmetry; by apply Hkey |].
      apply elem_of_expired_slices. eauto.
    + rewrite decide_False; [reflexivity |].
      intros [s' [-> [Hlt [u' Hu']]%elem_of_expired_slices]]%list_elem_of_fmap.
      rewrite (Hkey _ _ Hu') in Hu. congruence.
  - by case_decide.
Qed.

(** A slice that has expired is gone after the sweep, whatever else is
    registered. *)
Lemma expire_slices_removes (now : datetime) (self : RAM.t) (u : string)
    (s : Slice.t) :
  RAM._slices self !! u = Some s → Slice.urn s = u →
  (Slice.expiration s < now)%N →
  RAM._slices (RAM.expire_slices now self) !! u = None.
Proof.
  intros Hu Hurn Hlt. rewrite expire_slices_unfold, release_all_slices.
  rewrite delete_all_lookup. rewrite decide_True; [reflexivity |].
  apply list_elem_of_fmap. exists s. split; [done |].
  apply elem_of_expired_slices. eauto.
Qed.

(** When no registered slice has expired the sweep changes nothing. *)
Lemma expire_slices_idle (now : datetime) (self : RAM.t) :
  (∀ u s, RAM._slices self !! u = Some s → (now ≤ Slice.expiration s)%N) →
  RAM.expire_slices now self = self.
Proof.
  intros Hfresh. rewrite expire_slices_unfold.
  replace (expired_slices now self) with (@nil Slice.t); [reflexivity |].
  symmetry. apply elem_of_nil_inv. intros s Hs.
  apply elem_of_expired_slices in Hs as [Hlt [u Hu]].
  specialize (Hfresh u s Hu). lia.
Qed.

(** C7, on the code: with verified credentials expiring at 900 and at 800,
    in this order, a renewal to 1000 fails with code 19 and its output
    names 800, the expiry of the last credential scanned, although the
    latest expiry is 900.  [RenewSliver_out_of_range] gives the general
    form: the output names the expiry of the last credential of the
    sequence. *)
Theorem renew_ceiling_reports_last_credential :
  RAM.RenewSliver busy "a" (Some [900%N; 800%N]) 1000%N
  = (busy,
     Return (RAM.errorResult 19
       (Fmt "Out of range: Expiration %s is out of range (past last credential expiration of %s)."
            [ATime 1000%N; ATime 800%N]) None))
  ∧ (800 < 900)%N.
Proof. split; [vm_compute; reflexivity | lia]. Qed.

(** C10: on a registered slice that is not shutdown, a renewal to [t] that
    some verified credential reaches stores exactly [t], whatever the
    current expiration and the current time are; when [t] is in the past
    at the next sweep, that sweep removes the slice. *)
Theorem renew_no_lower_bound (self : RAM.t) (slice_urn : string)
    (sliver : Slice.t) (creds : list datetime) (t : datetime) :
  RAM._slices self !! slice_urn = Some sliver →
  Slice.status (RAM._agg self) sliver (RAM.catalog self (Some slice_urn))
  ≠ Resource.STATUS_SHUTDOWN →
  (∃ c, c ∈ creds ∧ (t ≤ c)%N) →
  let self' := (RAM.RenewSliver self slice_urn (Some creds) t).1 in
  RAM._slices self' !! slice_urn = Some (Slice.set_expiration t sliver)
  ∧ Slice.expiration (Slice.set_expiration t sliver) = t
  ∧ (∀ now, Slice.urn sliver = slice_urn → (t < now)%N →
       RAM._slices (RAM.expire_slices now self') !! slice_urn = None).
Proof.
  intros Hreg Hstatus Hsome self'. subst self'.
  rewrite (RenewSliver_commits self slice_urn sliver) by assumption.
  cbn [fst]. split; [| split].
  - cbn. apply lookup_insert_eq.
  - reflexivity.
  - intros now Hurn Hlt.
    apply (expire_slices_removes _ _ _ (Slice.set_expiration t sliver)).
    + cbn. apply lookup_insert_eq.
    + exact Hurn.
    + exact Hlt.
Qed.

(** Slice a of [busy] expires at 700; renewed to 50 at a time when the
    clock already shows 100, it expires at 50 and the next sweep takes
    it. *)
Lemma renew_no_lower_bound_witness :
  let self' := (RAM.RenewSliver busy "a" (Some [700%N]) 50%N).1 in
  RAM._slices self' !! "a"
  = Some (Slice.set_expiration 50%N (Slice.mk "a" 700%N [0; 1]))
  ∧ Slice.expiration (Slice.set_expiration 50%N (Slice.mk "a" 700%N [0; 1]))
    = 50%N
  ∧ (∀ now, Slice.urn (Slice.mk "a" 700%N [0; 1]) = "a" → (50 < now)%N →
       RAM._slices (RAM.expire_slices now self') !! "a" = None).
Proof.
  apply (renew_no_lower_bound busy "a" (Slice.mk "a" 700%N [0; 1])
           [700%N] 50%N).
  - vm_compute; reflexivity.
  - vm_compute; discriminate.
  - exists 700%N. split; [by left | lia].
Defined.

(** ** Deletion *)

Lemma mapM_same_type (urn_type : string) (urns : list (string * option string)) :
  Forall (fun u => u.2 = Some urn_type) urns →
  mapM snd urns = Some (replicate (length urns) urn_type).
Proof.
  induction 1 as [|[u ty] urns Hty _ IH]; [reflexivity |].
  simpl in *. subst ty. by rewrite IH.
Qed.

Lemma remove_dups_replicate (n : nat) (x : string) :
  remove_dups (replicate (S n) x) = [x].
Proof.
  induction n as [|n IH]; [reflexivity |].
  change (replicate (S (S n)) x) with (x :: replicate (S n) x).
  cbn -[replicate].
  destruct (decide_rel _ _ _) as [_|Hnin]; [exact IH |].
  exfalso. apply Hnin. by left.
Qed.

(** C8: a Delete call whose URNs all have one type other than sliver, made
    with verified credentials on a registered slice whose status over its
    member resources is shutdown, returns the error with code 11
    (unavailable) and leaves the state as it was: the slice stays
    registered and its resources stay as they were.  Whatever the URN types
    and the verifier answer, a Delete call aimed at such a slice changes
    nothing. *)
Theorem delete_shutdown_unavailable (self : RAM.t) (slice_urn : string)
    (theslice : Slice.t) (urn_type : string)
    (rest : list (string * option string)) (creds : list datetime) :
  RAM._slices self !! slice_urn = Some theslice →
  slice_status self theslice = Resource.STATUS_SHUTDOWN →
  Forall (fun u => u.2 = Some urn_type) rest →
  urn_type ≠ "sliver" →
  RAM.Delete self ((slice_urn, Some urn_type) :: rest) (Some creds)
  = (self,
     Return (RAM.errorResult 11
       (Fmt "Unavailable: Slice %s is unavailable." [AStr slice_urn]) None))
  ∧ ∀ ty' rest' creds',
      (RAM.Delete self ((slice_urn, ty') :: rest') creds').1 = self.
Proof.
  intros Hreg Hstatus Hrest Hty. unfold slice_status in Hstatus. split.
  - unfold RAM.Delete.
    rewrite (mapM_same_type urn_type) by (constructor; [done | exact Hrest]).
    cbn [length]. rewrite remove_dups_replicate.
    rewrite decide_False by (simpl; lia).
    cbn [replicate]. rewrite decide_False by exact Hty.
    rewrite Hreg. by rewrite decide_True.
  - intros ty' rest' creds'. unfold RAM.Delete.
    destruct (mapM snd ((slice_urn, ty') :: rest')) as [types|]; [| done].
    case_decide; [done |].
    destruct types as [|ty types]; [done |].
    case_decide; [done |].
    destruct creds'; [| done].
    rewrite Hreg. by rewrite decide_True.
Qed.

(** Slice a of [halted] is shut down; deleting it is refused. *)
Lemma delete_shutdown_unavailable_witness :
  RAM.Delete halted [("a", Some "slice")] (Some [])
  = (halted,
     Return (RAM.errorResult 11
       (Fmt "Unavailable: Slice %s is unavailable." [AStr "a"]) None))
  ∧ ∀ ty' rest' creds',
      (RAM.Delete halted (("a", ty') :: rest') creds').1 = halted.
Proof.
  apply (delete_shutdown_unavailable halted "a" (Slice.mk "a" 700%N [0; 1])
           "slice" [] []).
  - vm_compute; reflexivity.
  - vm_compute; reflexivity.
  - constructor.
  - discriminate.
Defined.

(** ** The envelope at the public boundary *)

Lemma serve_guarded (now : datetime) (c : public_call) (delegate : RAM.t) :
  serve now c delegate = AggregateManager.guarded (delegated now c delegate).
Proof. by destruct c. Qed.

Ltac split_outcome :=
  repeat match goal with
    | |- context [match ?x with _ => _ end] =>
        lazymatch x with
        | context [match _ with _ => _ end] => fail
        | _ => destruct x
        end
    end.

Lemma delegate_outcome (now : datetime) (c : call) (self : RAM.t) :
  outcome_shape (perform now c self).2.
Proof.
  destruct c; cbn [perform];
    unfold RAM.GetVersion, RAM.ListResources, RAM.Allocate, RAM.Delete,
      RAM.SliverStatus, RAM.RenewSliver, RAM.Shutdown;
    cbv zeta; split_outcome; cbn [snd outcome_shape]; try exact I;
    solve [ left; repeat split; reflexivity
          | right; cbn; repeat split; try reflexivity;
            rewrite !elem_of_cons; tauto ].
Qed.

Lemma delegated_outcome (now : datetime) (c : public_call) (self : RAM.t) :
  outcome_shape (delegated now c self).2.
Proof.
  destruct c as [|creds options|slice_urn creds rspec|slice_urn creds].
  - apply (delegate_outcome now CallGetVersion).
  - apply (delegate_outcome now (CallListResources creds options)).
  - apply (delegate_outcome now (CallAllocate slice_urn creds rspec)).
  - apply (delegate_outcome now (CallDelete [slice_urn] creds)).
Qed.

(** C9, as the code has it: every operation of the public adapter returns
    an envelope with a code, a value and an output.  It is the delegate's
    envelope when the delegate returns one, and the envelope with code 102
    when the delegate raises.  The code has [geni_code] and [am_type]
    throughout; [am_code] is 0 on success envelopes and on the envelope for
    an exception, and is not set on the error envelopes of the delegate.
    [geni_code] is 0 on success envelopes only, and their output is
    empty. *)
Theorem public_envelope (now : datetime) (c : public_call)
    (delegate : RAM.t) :
  let e := (serve now c delegate).2 in
  match (delegated now c delegate).2 with
  | Return e' => e = e' ∧ (success_envelope e ∨ error_envelope e)
  | Raise ex =>
      e = AggregateManager._exception_result ex ∧ exception_envelope e
  end
  ∧ (geni_code (code e) = 0%Z ↔ success_envelope e)
  ∧ (success_envelope e → output e = empty_text).
Proof.
  intros e. subst e. rewrite serve_guarded.
  pose proof (delegated_outcome now c delegate) as Hshape.
  unfold AggregateManager.guarded.
  destruct (delegated now c delegate).2 as [e'|ex]; cbn in Hshape |- *.
  - split; [by split |]. split; [| by intros (_ & _ & ?)].
    split; [| by intros (? & _)].
    intros Hzero. destruct Hshape as [?|(Hin & _)]; [done |].
    rewrite Hzero in Hin. rewrite !elem_of_cons in Hin.
    exfalso. destruct_or!; try discriminate. by inversion Hin.
  - split; [by repeat split |]. split; [| by intros (_ & _ & ?)].
    split; [discriminate | by intros (? & _)].
Qed.

(** C9, as stated: the public Allocate with an unparseable request returns
    an envelope whose code has no [am_code]. *)
Lemma public_error_envelope_without_am_code :
  (serve 0%N (PublicAllocate "s" (Some []) None) RAM.init).2
  = {| code := {| geni_code := 1; am_type := "gcf2"; am_code := None |};
       val := VEmpty;
       output := Fmt "Bad Args: RSpec is unparseable" [] |}
  ∧ am_code (code (serve 0%N (PublicAllocate "s" (Some []) None)
                     RAM.init).2) = None.
Proof. split; vm_compute; reflexivity. Qed.

(** ** Allocation *)

(** C5, as the code has it: an Allocate call with verified credentials and
    a parseable request, for a URN that is not registered once the sweep of
    the call has run, and with more nodes than there are available
    resources at that point, returns the error with code 6 (insufficient
    resources) and leaves the registry and the catalog as the sweep left
    them, which is as they were before the call when no registered slice
    has expired. *)
Theorem allocate_insufficient (now : datetime) (self : RAM.t)
    (slice_urn : string) (creds : list datetime) (unbound : list string) :
  let swept := RAM.expire_slices now self in
  RAM._slices swept !! slice_urn = None →
  length (RAM.resources swept (Some true)) < length unbound →
  RAM.Allocate now self slice_urn (Some creds) (Some unbound)
  = (swept,
     Return (RAM.errorResult 6
       (Fmt "Too Big: insufficient resources to fulfill request" []) None))
  ∧ ((∀ u s, RAM._slices self !! u = Some s → (now ≤ Slice.expiration s)%N) →
     swept = self).
Proof.
  intros swept Hfree Hshort. split.
  - unfold RAM.Allocate. cbv zeta. fold swept.
    rewrite decide_False by (rewrite Hfree; by intros [? ?]).
    by rewrite decide_True.
  - apply expire_slices_idle.
Qed.

(** One free resource in [busy] at time 200, and a request for two. *)
Lemma allocate_insufficient_witness :
  RAM.Allocate 200%N busy "b" (Some [900%N]) (Some ["x"; "y"])
  = (RAM.expire_slices 200%N busy,
     Return (RAM.errorResult 6
       (Fmt "Too Big: insufficient resources to fulfill request" []) None))
  ∧ ((∀ u s, RAM._slices busy !! u = Some s → (200 ≤ Slice.expiration s)%N) →
     RAM.expire_slices 200%N busy = busy).
Proof.
  apply (allocate_insufficient 200%N busy "b" [900%N] ["x"; "y"]).
  - vm_compute; reflexivity.
  - vm_compute. lia.
Defined.

(** C5, as stated: in [busy] slice b is not registered and one resource is
    available; at time 800, when slice a has expired, a request for four
    nodes is refused with code 6, yet the call has removed slice a from the
    registry and reset its two resources. *)
Lemma allocate_insufficient_sweeps :
  let r := RAM.Allocate 800%N busy "b" (Some [900%N])
             (Some ["w"; "x"; "y"; "z"]) in
  RAM._slices busy !! "b" = None
  ∧ length (RAM.resources busy (Some true)) = 1
  ∧ r.2 = Return (RAM.errorResult 6
             (Fmt "Too Big: insufficient resources to fulfill request" [])
             None)
  ∧ RAM._slices busy !! "a" = Some (Slice.mk "a" 700%N [0; 1])
  ∧ RAM._slices r.1 !! "a" = None
  ∧ Resource.available <$> RAM._agg busy = [false; false; true]
  ∧ Resource.available <$> RAM._agg r.1 = [true; true; true]
  ∧ r.1 ≠ busy.
Proof.
  repeat split; try (vm_compute; reflexivity).
  intros Heq.
  assert (H : Resource.available <$> RAM._agg
                (RAM.Allocate 800%N busy "b" (Some [900%N])
                   (Some ["w"; "x"; "y"; "z"])).1
              = Resource.available <$> RAM._agg busy) by (by rewrite Heq).
  vm_compute in H. discriminate.
Qed.

Lemma clamp_le_start (expiration : datetime) (creds : list datetime) :
  (RAM.clamp expiration creds ≤ expiration)%N.
Proof.
  revert expiration. induction creds as [|c creds IH]; intros e; [reflexivity |].
  unfold RAM.clamp in *. cbn [foldl].
  destruct (N.ltb_spec c e); [specialize (IH c); lia | apply IH].
Qed.

Lemma clamp_le_cred (expiration : datetime) (creds : list datetime)
    (c : datetime) :
  c ∈ creds → (RAM.clamp expiration creds ≤ c)%N.
Proof.
  revert expiration. induction creds as [|c' creds IH]; intros e Hin.
  - inversion Hin.
  - change (RAM.clamp e (c' :: creds))
      with (RAM.clamp (if (c' <? e)%N then c' else e) creds).
    apply elem_of_cons in Hin as [->|Hin]; [| by apply IH].
    etransitivity; [apply clamp_le_start |].
    destruct (N.ltb_spec c' e); lia.
Qed.

(** The filling loop adds the resources to the slice one by one and leaves
    its URN and expiration alone. *)
Lemma attach_slice (resources : list nat) (s : Slice.t)
    (heap : list Resource.t) :
  (RAM.attach resources s heap).1 = foldl Slice.add_resource s resources.
Proof.
  unfold RAM.attach. revert s heap.
  induction resources as [|i resources IH]; intros s heap; [reflexivity |].
  cbn [foldl fst snd]. apply IH.
Qed.

Lemma add_resources_expiration (resources : list nat) (s : Slice.t) :
  Slice.expiration (foldl Slice.add_resource s resources) = Slice.expiration s
  ∧ Slice.urn (foldl Slice.add_resource s resources) = Slice.urn s.
Proof.
  revert s. induction resources as [|i resources IH]; intros s; [done |].
  cbn [foldl]. destruct (IH (Slice.add_resource s i)) as [-> ->]. done.
Qed.

Lemma bind_total (unbound : list string) (available heap : list Resource.t)
    (acc : list nat) :
  (length unbound ≤ length available)%nat →
  is_Some (RAM.bind unbound available heap acc).
Proof.
  revert available heap acc.
  induction unbound as [|client_id unbound IH]; intros available heap acc Hlen.
  - by eexists.
  - destruct available as [|r available]; cbn in Hlen; [lia |].
    cbn [RAM.bind]. apply IH. lia.
Qed.

(** What a successful Allocate leaves: the swept state with the requested
    nodes bound and the new slice registered. *)
Lemma Allocate_cases (now : datetime) (self : RAM.t) (slice_urn : string)
    (creds : option (list datetime)) (rspec : option (list string)) :
  let swept := RAM.expire_slices now self in
  let r := RAM.Allocate now self slice_urn creds rspec in
  (r.1 = swept ∧ ∀ e, r.2 = Return e → error_envelope e)
  ∨ ∃ cs unbound heap bound,
      creds = Some cs ∧ rspec = Some unbound
      ∧ RAM._slices swept !! slice_urn = None
      ∧ RAM.bind unbound (RAM.resources swept (Some true)) (RAM._agg swept) []
        = Some (heap, bound)
      ∧ let filled :=
          RAM.attach bound
            (Slice.init slice_urn
               (RAM.clamp (now + timedelta_seconds ALLOCATE_EXPIRATION_SECONDS)%N
                          cs))
            heap in
        r.1 = {| RAM._slices := <[slice_urn := filled.1]> (RAM._slices swept);
                 RAM._agg := filled.2 |}
        ∧ ∃ e, r.2 = Return e ∧ success_envelope e.
Proof.
  intros swept r. subst r. unfold RAM.Allocate. cbv zeta. fold swept.
  destruct creds as [cs|]; [| left; by split].
  case_decide as Hreg.
  { left. split; [done |]. intros e [= <-].
    repeat split; rewrite ?elem_of_cons; tauto. }
  destruct rspec as [unbound|].
  2:{ left. split; [done |]. intros e [= <-].
      repeat split; rewrite ?elem_of_cons; tauto. }
  case_decide as Hlen.
  { left. split; [done |]. intros e [= <-].
    repeat split; rewrite ?elem_of_cons; tauto. }
  destruct (RAM.bind _ _ _ _) as [[heap bound]|] eqn:Hbind; [| left; by split].
  right. exists cs, unbound, heap, bound. repeat split; try done.
  - destruct (RAM._slices swept !! slice_urn) eqn:E; [| done].
    exfalso. apply Hreg. eauto.
  - eexists. split; [reflexivity |]. by repeat split.
Qed.


Lemma renew_scan_inl (creds : list datetime) (t m : datetime) :
  RAM.renew_scan creds t m = inl tt → ∃ c, c ∈ creds ∧ (t ≤ c)%N.
Proof.
  revert m. induction creds as [|c creds IH]; intros m; [discriminate |].
  simpl. destruct (N.leb_spec t c) as [Htc|Htc].
  - intros _. exists c. split; [by left | done].
  - intros [c' [Hin Hle]]%IH. exists c'. split; [by right | done].
Qed.

(** ** Expiration bounds *)

Lemma allocation_window_le_max_lease :
  (timedelta_seconds ALLOCATE_EXPIRATION_SECONDS ≤ max_lease)%N.
Proof. apply N.leb_le. vm_compute. reflexivity. Qed.

(** C2, as the code has it.  The expiration Allocate stores for a new slice
    exceeds no verified credential's expiry and not the time of the call
    plus the ten minutes of an allocation, hence not that time plus the
    maximum lease.  The expiration RenewSliver stores is the requested
    instant, which some verified credential reaches; neither the earliest
    credential expiry nor the maximum lease bounds it. *)
Theorem expiration_bounds :
  (∀ now self slice_urn creds rspec,
     let r := RAM.Allocate now self slice_urn (Some creds) rspec in
     ∀ e, r.2 = Return e → geni_code (code e) = 0%Z →
     ∃ s, RAM._slices r.1 !! slice_urn = Some s
          ∧ (∀ c, c ∈ creds → (Slice.expiration s ≤ c)%N)
          ∧ (Slice.expiration s
             ≤ now + timedelta_seconds ALLOCATE_EXPIRATION_SECONDS)%N
          ∧ (Slice.expiration s ≤ now + max_lease)%N)
  ∧ (∀ self slice_urn creds t,
       let r := RAM.RenewSliver self slice_urn (Some creds) t in
       ∀ e, r.2 = Return e → geni_code (code e) = 0%Z →
       ∃ s, RAM._slices r.1 !! slice_urn = Some s
            ∧ Slice.expiration s = t
            ∧ ∃ c, c ∈ creds ∧ (t ≤ c)%N).
Proof.
  split.
  - intros now self slice_urn creds rspec r e Hret Hcode.
    destruct (Allocate_cases now self slice_urn (Some creds) rspec)
      as [[_ Herr]|(cs & unbound & heap & bound & [= <-] & _ & _ & _ & Hst & _)].
    + destruct (Herr e Hret) as (Hin & _). rewrite Hcode in Hin.
      rewrite !elem_of_cons in Hin. exfalso.
      destruct_or!; try discriminate. by inversion Hin.
    + subst r. rewrite Hst. cbn [RAM._slices]. eexists.
      split; [apply lookup_insert_eq |].
      rewrite attach_slice.
      destruct (add_resources_expiration bound
                  (Slice.init slice_urn
                     (RAM.clamp
                        (now + timedelta_seconds ALLOCATE_EXPIRATION_SECONDS)%N
                        creds))) as [-> _].
      cbn [Slice.expiration Slice.init]. split; [| split].
      * intros c Hc. by apply clamp_le_cred.
      * apply clamp_le_start.
      * etransitivity; [apply clamp_le_start |].
        pose proof allocation_window_le_max_lease. lia.
  - intros self slice_urn creds t r e Hret Hcode. subst r.
    unfold RAM.RenewSliver in *.
    destruct (RAM._slices self !! slice_urn) as [sliver|] eqn:Hreg;
      [| injection Hret as <-; discriminate].
    case_decide; [injection Hret as <-; discriminate |].
    destruct (RAM.renew_scan creds t datetime_min) as [[]|maxexp] eqn:Hscan;
      [| injection Hret as <-; discriminate].
    cbn [fst RAM._slices]. eexists. split; [apply lookup_insert_eq |].
    split; [reflexivity |]. by apply renew_scan_inl in Hscan.
Qed.

(** The bounds at the creation of slice a of [busy], and at its renewal to
    650 with a credential that expires at 700. *)
Lemma expiration_bounds_witness :
  (∃ s, RAM._slices
          (RAM.Allocate 100%N RAM.init "a" (Some [700%N])
             (Some ["x"; "y"])).1 !! "a" = Some s
        ∧ (∀ c, c ∈ [700%N] → (Slice.expiration s ≤ c)%N)
        ∧ (Slice.expiration s
           ≤ 100 + timedelta_seconds ALLOCATE_EXPIRATION_SECONDS)%N
        ∧ (Slice.expiration s ≤ 100 + max_lease)%N)
  ∧ (∃ s, RAM._slices (RAM.RenewSliver busy "a" (Some [700%N]) 650%N).1 !! "a"
          = Some s
          ∧ Slice.expiration s = 650%N
          ∧ ∃ c, c ∈ [700%N] ∧ (650 ≤ c)%N).
Proof.
  split.
  - eapply (proj1 expiration_bounds 100%N RAM.init "a" [700%N]
              (Some ["x"; "y"])); vm_compute; reflexivity.
  - eapply (proj2 expiration_bounds busy "a" [700%N] 650%N);
      vm_compute; reflexivity.
Defined.

(** C2, as stated: slice a of [busy] is renewed with two verified
    credentials, the first of which expires at 500; the stored expiration
    is past that expiry, and past the time of the call plus the maximum
    lease for a call made at 100. *)
Lemma renew_exceeds_min_credential_and_max_lease :
  let r := RAM.RenewSliver busy "a"
             (Some [500%N; 90000000000000000%N]) 80000000000000000%N in
  r.2 = Return (RAM.successResult (VBool true))
  ∧ Slice.expiration <$> RAM._slices r.1 !! "a" = Some 80000000000000000%N
  ∧ (500 < 80000000000000000)%N
  ∧ (100 + max_lease < 80000000000000000)%N.
Proof. repeat split; vm_compute; reflexivity. Qed.

(** C3, on the code: slice a of [busy] expired at 700.  A sweep at 800
    removes it, and GetVersion at 800 runs that sweep; SliverStatus,
    RenewSliver, Shutdown and Delete called at 800 run no sweep and act on
    slice a as a registered slice. *)
Theorem sweep_skipped_by_four_operations :
  RAM._slices busy !! "a" = Some (Slice.mk "a" 700%N [0; 1])
  ∧ RAM._slices (RAM.expire_slices 800%N busy) !! "a" = None
  ∧ (perform 800%N CallGetVersion busy).1 = RAM.expire_slices 800%N busy
  ∧ perform 800%N (CallSliverStatus "a" (Some [])) busy
    = (busy,
       Return {| code := {| geni_code := 0; am_type := "gcf2";
                            am_code := Some 0%Z |};
                 val := VStatus "a" Resource.STATUS_UNKNOWN
                          [(0, Resource.STATUS_UNCONFIGURED);
                           (1, Resource.STATUS_UNCONFIGURED)];
                 output := empty_text |})
  ∧ (perform 800%N (CallRenewSliver "a" (Some [2000%N]) 1500%N) busy).2
    = Return (RAM.successResult (VBool true))
  ∧ RAM._slices
      (perform 800%N (CallRenewSliver "a" (Some [2000%N]) 1500%N) busy).1
    !! "a" = Some (Slice.mk "a" 1500%N [0; 1])
  ∧ perform 800%N (CallShutdown "a" (Some [])) busy
    = (halted, Return (RAM.successResult (VBool true)))
  ∧ (perform 800%N (CallDelete [("a", Some "slice")] (Some [])) busy).2
    = Return (RAM.successResult (VBool true)).
Proof. repeat split; vm_compute; reflexivity. Qed.

(** ** No double binding *)

Lemma mark_nil (b : bool) (sh : list (nat * bool)) : mark b [] sh = sh.
Proof.
  unfold mark. induction sh as [|p sh IH]; [reflexivity |].
  rewrite fmap_cons, IH. rewrite decide_False; [reflexivity |].
  apply not_elem_of_nil.
Qed.

Lemma mark_cons (b : bool) (i : nat) (ids : list nat)
    (sh : list (nat * bool)) :
  mark b ids (mark b [i] sh) = mark b (i :: ids) sh.
Proof.
  unfold mark. rewrite <- list_fmap_compose. apply list_fmap_ext.
  intros _ [j a] _. cbn.
  destruct (decide (j = i)) as [->|Hne].
  - rewrite (decide_True (P := i ∈ [i])) by (by left).
    rewrite (decide_True (P := i ∈ i :: ids)) by (by left).
    cbn. by case_decide.
  - rewrite (decide_False (P := j ∈ [i]))
      by (by intros ->%list_elem_of_singleton).
    cbn. destruct (decide (j ∈ ids)) as [Hin|Hnin].
    + rewrite decide_True; [reflexivity | by right].
    + rewrite decide_False; [reflexivity |].
      by intros [?|?]%elem_of_cons.
Qed.

Lemma elem_of_mark (b : bool) (ids : list nat) (sh : list (nat * bool))
    (i : nat) (a : bool) :
  (i, a) ∈ mark b ids sh
  ↔ ∃ a0, (i, a0) ∈ sh ∧ a = if decide (i ∈ ids) then b else a0.
Proof.
  unfold mark. rewrite list_elem_of_fmap. split.
  - intros [[j a0] [Heq Hin]]. cbn in Heq.
    destruct (decide (j ∈ ids)) as [Hj|Hj]; injection Heq as -> ->.
    + exists a0. by rewrite decide_True.
    + exists a0. by rewrite decide_False.
  - intros [a0 [Hin ->]]. exists (i, a0). split; [| done]. cbn.
    by case_decide.
Qed.

Lemma shadow_update (b : bool) (f : Resource.t → Resource.t) (i : nat)
    (heap : list Resource.t) :
  (∀ r, Resource.id (f r) = Resource.id r) →
  (∀ r, Resource.available (f r) = b) →
  shadow (Resource.update i f heap) = mark b [i] (shadow heap).
Proof.
  intros Hid Hav. unfold shadow, mark, Resource.update.
  change (map ?g heap) with (g <$> heap).
  rewrite <- !list_fmap_compose. apply list_fmap_ext.
  intros _ r _. cbn. destruct (Nat.eqb_spec (Resource.id r) i) as [Heq|Hne].
  - rewrite decide_True by (rewrite Heq; by left). by rewrite Hid, Hav.
  - rewrite decide_False; [reflexivity |].
    by intros ?%list_elem_of_singleton.
Qed.

Lemma shadow_update_same (f : Resource.t → Resource.t) (i : nat)
    (heap : list Resource.t) :
  (∀ r, Resource.id (f r) = Resource.id r) →
  (∀ r, Resource.available (f r) = Resource.available r) →
  shadow (Resource.update i f heap) = shadow heap.
Proof.
  intros Hid Hav. unfold shadow, Resource.update.
  change (map ?g heap) with (g <$> heap).
  rewrite <- !list_fmap_compose. apply list_fmap_ext.
  intros _ r _. cbn. destruct (Nat.eqb (Resource.id r) i); [| reflexivity].
  by rewrite Hid, Hav.
Qed.

Lemma shadow_for_each (b : bool) (f : Resource.t → Resource.t)
    (refs heap : list Resource.t) :
  (∀ r, Resource.id (f r) = Resource.id r) →
  (∀ r, Resource.available (f r) = b) →
  shadow (RAM.for_each f refs heap)
  = mark b (Resource.id <$> refs) (shadow heap).
Proof.
  intros Hid Hav. unfold RAM.for_each. revert heap.
  induction refs as [|r refs IH]; intros heap.
  - cbn. by rewrite mark_nil.
  - cbn [foldl]. rewrite IH, (shadow_update b) by assumption.
    by rewrite mark_cons.
Qed.

Lemma deref_Some (heap : list Resource.t) (i : nat) (r : Resource.t) :
  Resource.deref heap i = Some r → r ∈ heap ∧ Resource.id r = i.
Proof.
  unfold Resource.deref. intros [Hin Heq]%find_some.
  split; [by apply list_elem_of_In | by apply Nat.eqb_eq].
Qed.

Lemma deref_is_Some (heap : list Resource.t) (i : nat) :
  i ∈ Resource.id <$> heap → is_Some (Resource.deref heap i).
Proof.
  intros [r [-> Hin]]%list_elem_of_fmap. unfold Resource.deref.
  destruct (find _ heap) as [r'|] eqn:Hfind; [by eexists |].
  apply list_elem_of_In in Hin.
  pose proof (find_none _ _ Hfind r Hin) as Hno. cbn in Hno.
  by rewrite Nat.eqb_refl in Hno.
Qed.

(** The resources a slice gives back are those of its keys that the pool
    has. *)
Lemma elem_of_resources_ids (heap : list Resource.t) (s : Slice.t) (j : nat) :
  j ∈ Resource.id <$> Slice.resources heap s
  ↔ j ∈ Slice._resources s ∧ j ∈ Resource.id <$> heap.
Proof.
  unfold Slice.resources. rewrite list_elem_of_fmap. split.
  - intros [r [-> [i [Hi Hderef]]%list_elem_of_omap]].
    apply deref_Some in Hderef as [Hin <-].
    split; [done | by apply list_elem_of_fmap_2].
  - intros [Hj Hheap]. destruct (deref_is_Some heap j Hheap) as [r Hr].
    exists r. destruct (deref_Some _ _ _ Hr) as [_ Hid].
    split; [done |]. apply list_elem_of_omap. eauto.
Qed.

Lemma elem_of_shadow_ids (heap : list Resource.t) (i : nat) (a : bool) :
  (i, a) ∈ shadow heap → i ∈ Resource.id <$> heap.
Proof.
  unfold shadow. intros [r [[= -> ->] Hin]]%list_elem_of_fmap.
  by apply list_elem_of_fmap_2.
Qed.

Lemma pristine_reset (r : Resource.t) : pristine (Resource.reset r).
Proof. reflexivity. Qed.

(** Where an element of the pool comes from when resources are reset: it
    is the resource with the same id, untouched or reset, and reset when
    its id is among those of the loop. *)
Lemma reset_each_elem (refs heap : list Resource.t) (r' : Resource.t) :
  r' ∈ RAM.for_each Resource.reset refs heap →
  ∃ r, r ∈ heap ∧ Resource.id r = Resource.id r'
       ∧ (r' = r ∨ pristine r')
       ∧ (Resource.id r' ∈ Resource.id <$> refs → pristine r').
Proof.
  unfold RAM.for_each. revert heap.
  induction refs as [|r0 refs IH]; intros heap Hin.
  - exists r'. repeat split; [done | by left |]. intros H. inversion H.
  - cbn [foldl] in Hin.
    destruct (IH _ Hin) as (r1 & Hr1 & Hid1 & Hsame & Hrefs).
    unfold Resource.update in Hr1.
    change (map ?g heap) with (g <$> heap) in Hr1.
    apply list_elem_of_fmap in Hr1 as (r & -> & Hr). exists r.
    destruct (Nat.eqb_spec (Resource.id r) (Resource.id r0)) as [Heq|Hne].
    + assert (pristine r') as Hp.
      { destruct Hsame as [->|?]; [apply pristine_reset | done]. }
      repeat split; [done | exact Hid1 | by right | done].
    + repeat split; [done | exact Hid1 | exact Hsame |].
      rewrite fmap_cons. intros [Heq|?]%elem_of_cons; [| by apply Hrefs].
      congruence.
Qed.

Lemma release_elem (self : RAM.t) (u : string) (s : Slice.t)
    (r' : Resource.t) :
  r' ∈ RAM._agg (RAM.release self u s) →
  ∃ r, r ∈ RAM._agg self ∧ Resource.id r = Resource.id r'
       ∧ (r' = r ∨ pristine r')
       ∧ (Resource.id r' ∈ Slice._resources s → pristine r').
Proof.
  unfold RAM.release, RAM.deallocate. cbn [RAM._agg]. intros Hin.
  destruct (reset_each_elem _ _ _ Hin) as (r & Hr & Hid & Hsame & Hrefs).
  exists r. repeat split; try done. intros Hmem. apply Hrefs.
  apply elem_of_resources_ids. split; [done |].
  rewrite <- Hid. by apply list_elem_of_fmap_2.
Qed.

Lemma release_all_elem (l : list Slice.t) (self : RAM.t) (r' : Resource.t) :
  r' ∈ RAM._agg (foldl (fun self s => RAM.release self (Slice.urn s) s) self l) →
  ∃ r, r ∈ RAM._agg self ∧ Resource.id r = Resource.id r'
       ∧ (r' = r ∨ pristine r')
       ∧ (∀ s, s ∈ l → Resource.id r' ∈ Slice._resources s → pristine r').
Proof.
  revert self. induction l as [|s0 l IH]; intros self Hin.
  - exists r'. repeat split; [done | by left |]. intros s H. inversion H.
  - cbn [foldl] in Hin.
    destruct (IH _ Hin) as (r1 & Hr1 & Hid1 & Hsame1 & Hl).
    destruct (release_elem _ _ _ _ Hr1) as (r & Hr & Hid & Hsame & Hs0).
    exists r. split; [done |]. split; [congruence |]. split.
    + destruct Hsame1 as [->|?]; [| by right].
      destruct Hsame as [->|?]; [by left | by right].
    + intros s [->|Hs]%elem_of_cons Hmem; [| by apply (Hl s)].
      destruct Hsame1 as [->|?]; [| done]. by apply Hs0.
Qed.

(** What the sweep does to a slice that has expired: its entry is removed
    ([expire_slices_removes]) and each of its resources is left reset:
    available, unconfigured, unallocated, and without a client id. *)
Lemma expire_slices_resets (now : datetime) (self : RAM.t) (u : string)
    (s : Slice.t) (r' : Resource.t) :
  RAM._slices self !! u = Some s →
  (Slice.expiration s < now)%N →
  r' ∈ RAM._agg (RAM.expire_slices now self) →
  Resource.id r' ∈ Slice._resources s →
  Resource.available r' = true
  ∧ Resource.status r' = Resource.STATUS_UNCONFIGURED
  ∧ Resource.state r' = Resource.STATE_GENI_UNALLOCATED
  ∧ Resource.external_id r' = None.
Proof.
  intros Hreg Hlt Hin Hmem. rewrite expire_slices_unfold in Hin.
  destruct (release_all_elem _ _ _ Hin) as (_ & _ & _ & _ & Hl).
  assert (Hp : pristine r').
  { apply (Hl s); [| done]. apply elem_of_expired_slices. eauto. }
  unfold pristine in Hp. rewrite <- Hp. by repeat split.
Qed.

(** The binding loop takes the first [length unbound] available resources
    and makes them unavailable. *)
Lemma bind_shadow (unbound : list string) (available heap : list Resource.t)
    (acc : list nat) (heap' : list Resource.t) (acc' : list nat) :
  RAM.bind unbound available heap acc = Some (heap', acc') →
  ∃ ids, acc' = (acc ++ ids)%list
         ∧ ids = Resource.id <$> take (length unbound) available
         ∧ shadow heap' = mark false ids (shadow heap).
Proof.
  revert available heap acc.
  induction unbound as [|client_id unbound IH]; intros available heap acc.
  - intros [= <- <-]. exists []. rewrite app_nil_r, mark_nil. done.
  - destruct available as [|r available]; [discriminate |].
    cbn [RAM.bind]. intros Hbind.
    destruct (IH _ _ _ Hbind) as (ids & -> & -> & Hshadow).
    exists (Resource.id r :: (Resource.id <$> take (length unbound) available)).
    split; [by rewrite <- app_assoc |]. split; [reflexivity |].
    rewrite Hshadow, (shadow_update false) by done.
    apply mark_cons.
Qed.

Lemma attach_heap (resources : list nat) (s : Slice.t)
    (heap : list Resource.t) :
  shadow (RAM.attach resources s heap).2 = shadow heap.
Proof.
  unfold RAM.attach. revert s heap.
  induction resources as [|i resources IH]; intros s heap; [reflexivity |].
  cbn [foldl fst snd]. rewrite IH. by apply shadow_update_same.
Qed.

Lemma elem_of_add_resources (resources : list nat) (s : Slice.t) (i : nat) :
  i ∈ Slice._resources (foldl Slice.add_resource s resources)
  ↔ i ∈ Slice._resources s ∨ i ∈ resources.
Proof.
  revert s. induction resources as [|j resources IH]; intros s.
  - cbn. rewrite elem_of_nil. tauto.
  - cbn [foldl]. rewrite IH, elem_of_cons. cbn.
    case_decide as Hj.
    + split; [tauto |]. intros [?|[->|?]]; tauto.
    + rewrite elem_of_app, list_elem_of_singleton. tauto.
Qed.

Section Release.

Variable self : RAM.t.
Variable u : string.
Variable s : Slice.t.

Hypothesis ok : consistent self.
Hypothesis registered : RAM._slices self !! u = Some s.

Lemma bound_in_release (u' : string) (i : nat) :
  bound_in (RAM.release self u s) u' i ↔ u' ≠ u ∧ bound_in self u' i.
Proof.
  unfold bound_in, RAM.release. cbn [RAM._slices]. split.
  - intros [s' [Hlook Hin]]. apply lookup_delete_Some in Hlook as [Hne Hlook].
    split; [done | eauto].
  - intros [Hne [s' [Hlook Hin]]]. exists s'. split; [| done].
    apply lookup_delete_Some. by split.
Qed.

Lemma release_shadow :
  shadow (RAM._agg (RAM.release self u s))
  = mark true (Resource.id <$> Slice.resources (RAM._agg self) s)
         (shadow (RAM._agg self)).
Proof.
  unfold RAM.release, RAM.deallocate. cbn [RAM._agg].
  by apply shadow_for_each.
Qed.

Lemma release_consistent : consistent (RAM.release self u s).
Proof.
  destruct ok as [Hkey Hdis Hav]. split.
  - intros u' s' Hlook. cbn in Hlook.
    apply lookup_delete_Some in Hlook as [_ Hlook]. by apply Hkey.
  - intros u1 u2 i [_ H1]%bound_in_release [_ H2]%bound_in_release.
    by apply (Hdis u1 u2 i).
  - intros i a. rewrite release_shadow.
    intros [a0 [Hin ->]]%elem_of_mark.
    setoid_rewrite bound_in_release.
    destruct (decide (i ∈ _)) as [Hi|Hi].
    + apply elem_of_resources_ids in Hi as [Hi _].
      split; [discriminate |]. intros [u' [Hne Hb]]. exfalso. apply Hne.
      apply (Hdis u' u i); [done |]. exists s. by split.
    + assert (Hnot : i ∉ Slice._resources s).
      { intros Hmem. apply Hi. apply elem_of_resources_ids.
        split; [done | by eapply elem_of_shadow_ids]. }
      rewrite (Hav i a0 Hin). split.
      * intros [u' Hb]. exists u'. split; [| done]. intros ->.
        destruct Hb as [s' [Hlook Hmem]]. congruence.
      * intros [u' [_ Hb]]. eauto.
Qed.

End Release.

(** The sweep keeps the registry and the pool in agreement. *)
Lemma release_all_consistent (l : list Slice.t) (self : RAM.t) :
  consistent self →
  NoDup (Slice.urn <$> l) →
  (∀ s, s ∈ l → RAM._slices self !! Slice.urn s = Some s) →
  consistent (foldl (fun self s => RAM.release self (Slice.urn s) s) self l).
Proof.
  revert self. induction l as [|s l IH]; intros self Hok Hnodup Hreg.
  - exact Hok.
  - cbn [foldl]. rewrite fmap_cons in Hnodup.
    apply NoDup_cons in Hnodup as [Hfresh Hnodup].
    apply IH; [| done |].
    + apply release_consistent; [done |]. apply Hreg. by left.
    + intros s' Hs'. cbn. rewrite lookup_delete_ne.
      * apply Hreg. by right.
      * intros Heq. apply Hfresh. rewrite Heq. by apply list_elem_of_fmap_2.
Qed.

Lemma expired_slices_NoDup (now : datetime) (self : RAM.t) :
  keyed self → NoDup (Slice.urn <$> expired_slices now self).
Proof.
  intros Hkey. unfold expired_slices.
  assert (Hall : ∀ p, p ∈ map_to_list (RAM._slices self) →
                      Slice.urn p.2 = p.1).
  { intros [k s] Hin. apply elem_of_map_to_list in Hin. by apply Hkey. }
  pose proof (NoDup_fst_map_to_list (RAM._slices self)) as Hnodup.
  revert Hall Hnodup. generalize (map_to_list (RAM._slices self)).
  intros l. induction l as [|[k s] l IH]; intros Hall Hnodup.
  - cbn. constructor.
  - rewrite fmap_cons in Hnodup. apply NoDup_cons in Hnodup as [Hk Hnodup].
    assert (IH' := IH (fun p Hp => Hall p (list_elem_of_further _ _ _ Hp))
                      Hnodup).
    change (map snd ((k, s) :: l)) with (s :: map snd l).
    rewrite filter_cons. case_decide; [| exact IH'].
    rewrite fmap_cons. apply NoDup_cons. split; [| exact IH'].
    intros [s' [Heq [_ Hin]%list_elem_of_filter]]%list_elem_of_fmap.
    change (map snd l) with (snd <$> l) in Hin.
    apply list_elem_of_fmap in Hin as [[k' s''] [-> Hin]].
    apply Hk. apply list_elem_of_fmap. exists (k', s''). split; [| done].
    pose proof (Hall (k, s) (list_elem_of_here _ _)) as Hks.
    pose proof (Hall (k', s'') (list_elem_of_further _ _ _ Hin)) as Hks'.
    cbn in *. congruence.
Qed.

Lemma expire_slices_consistent (now : datetime) (self : RAM.t) :
  consistent self → consistent (RAM.expire_slices now self).
Proof.
  intros Hok. rewrite expire_slices_unfold.
  apply release_all_consistent; [done | |].
  - apply expired_slices_NoDup, Hok.
  - intros s [_ [u Hu]]%elem_of_expired_slices.
    by rewrite (consistent_keyed _ Hok u s Hu).
Qed.

Lemma init_consistent : consistent RAM.init.
Proof.
  split.
  - intros u s Hlook. cbn in Hlook. by rewrite lookup_empty in Hlook.
  - intros u1 u2 i [s [Hlook _]]. cbn in Hlook.
    by rewrite lookup_empty in Hlook.
  - intros i a Hin. split.
    + intros ->. exfalso. cbn in Hin.
      rewrite !elem_of_cons, elem_of_nil in Hin.
      destruct_or!; try discriminate; done.
    + intros [u [s [Hlook _]]]. cbn in Hlook.
      by rewrite lookup_empty in Hlook.
Qed.

Lemma available_unbound (self : RAM.t) (n : nat) (i : nat) :
  consistent self →
  i ∈ Resource.id <$> take n (RAM.resources self (Some true)) →
  (i, true) ∈ shadow (RAM._agg self) ∧ ∀ u, ¬ bound_in self u i.
Proof.
  intros Hok [r [-> Hin]]%list_elem_of_fmap.
  apply elem_of_take in Hin as (k & Hin & _).
  apply list_elem_of_lookup_2 in Hin.
  unfold RAM.resources, RAM.catalog in Hin.
  apply list_elem_of_filter in Hin as [Hav Hin].
  assert (Hsh : (Resource.id r, true) ∈ shadow (RAM._agg self)).
  { unfold shadow. apply list_elem_of_fmap. exists r. by rewrite Hav. }
  split; [done |]. intros u Hb.
  pose proof (consistent_available _ Hok _ _ Hsh) as [_ Hfalse].
  discriminate Hfalse. eauto.
Qed.

Lemma Allocate_consistent (now : datetime) (self : RAM.t)
    (slice_urn : string) (creds : option (list datetime))
    (rspec : option (list string)) :
  consistent self →
  consistent (RAM.Allocate now self slice_urn creds rspec).1.
Proof.
  intros Hok. apply (expire_slices_consistent now) in Hok.
  destruct (Allocate_cases now self slice_urn creds rspec)
    as [[-> _]|(cs & unbound & heap & bound & _ & _ & Hfree & Hbind & -> & _)];
    [done |].
  set (swept := RAM.expire_slices now self) in *.
  apply bind_shadow in Hbind as (ids & -> & Hids & Hshadow).
  rewrite app_nil_l in *.
  set (e := RAM.clamp _ cs).
  assert (Hmem : ∀ i, i ∈ Slice._resources
                        (RAM.attach ids (Slice.init slice_urn e) heap).1
                      ↔ i ∈ ids).
  { intros i. rewrite attach_slice, elem_of_add_resources. cbn.
    rewrite elem_of_nil. tauto. }
  assert (Hnew : ∀ u' i,
    bound_in {| RAM._slices :=
                  <[slice_urn := (RAM.attach ids (Slice.init slice_urn e)
                                    heap).1]> (RAM._slices swept);
                RAM._agg := (RAM.attach ids (Slice.init slice_urn e) heap).2 |}
             u' i
    ↔ (u' = slice_urn ∧ i ∈ ids) ∨ (u' ≠ slice_urn ∧ bound_in swept u' i)).
  { intros u' i. unfold bound_in. cbn [RAM._slices].
    destruct (decide (u' = slice_urn)) as [->|Hne].
    - rewrite lookup_insert_eq. split.
      + intros [s [[= <-] Hin]]. left. split; [done | by apply Hmem].
      + intros [[_ Hin]|[? _]]; [| done]. eexists. split; [done |].
        by apply Hmem.
    - rewrite lookup_insert_ne by done. split; [by right | ].
      intros [[? _]|[_ ?]]; done. }
  assert (Hunbound : ∀ i, i ∈ ids → ∀ u, ¬ bound_in swept u i).
  { intros i Hi. rewrite Hids in Hi.
    by apply (available_unbound swept (length unbound) i Hok). }
  destruct Hok as [Hkey Hdis Hav]. split.
  - intros u s Hlook. cbn [RAM._slices] in Hlook.
    apply lookup_insert_Some in Hlook as [[<- <-]|[_ Hlook]]; [| by apply Hkey].
    rewrite attach_slice.
    by destruct (add_resources_expiration ids (Slice.init slice_urn e))
      as [_ ->].
  - intros u1 u2 i [[-> H1]|[Hne1 H1]]%Hnew [[-> H2]|[Hne2 H2]]%Hnew.
    + done.
    + by destruct (Hunbound i H1 u2).
    + by destruct (Hunbound i H2 u1).
    + by apply (Hdis u1 u2 i).
  - intros i a. cbn [RAM._agg]. rewrite attach_heap, Hshadow.
    intros [a0 [Hin ->]]%elem_of_mark. setoid_rewrite Hnew.
    destruct (decide (i ∈ ids)) as [Hi|Hi].
    + split; [| done]. intros _. exists slice_urn. by left.
    + rewrite (Hav i a0 Hin). split.
      * intros [u Hb]. exists u. right. split; [| done]. intros ->.
        destruct Hb as [s [Hlook _]]. congruence.
      * intros [u [[_ ?]|[_ Hb]]]; [done | eauto].
Qed.

Lemma Delete_consistent (self : RAM.t) (urns : list (string * option string))
    (creds : option (list datetime)) :
  consistent self → consistent (RAM.Delete self urns creds).1.
Proof.
  intros Hok. unfold RAM.Delete.
  destruct (mapM snd urns) as [types|]; [| done].
  case_decide; [done |].
  destruct types as [|ty types]; [done |].
  destruct urns as [|[slice_urn ?] urns]; [done |].
  case_decide; [done |].
  destruct creds; [| done].
  destruct (RAM._slices self !! slice_urn) as [theslice|] eqn:Hreg; [| done].
  case_decide; [done |].
  cbn [fst]. by apply release_consistent.
Qed.

Lemma run_consistent (calls : list (datetime * call)) (self : RAM.t) :
  Forall lease_call calls → consistent self → consistent (run calls self).
Proof.
  unfold run. intros Hcalls. revert self.
  induction Hcalls as [|[now c] calls Hc _ IH]; intros self Hok; [done |].
  cbn [foldl]. apply IH.
  destruct c; try (by destruct Hc); cbn [perform fst snd].
  - by apply Allocate_consistent.
  - by apply Delete_consistent.
Qed.

(** C1: after any sequence of Allocate and Delete calls on the initial
    manager, no resource is a key of the resource dicts of two registered
    slices, and a resource of the pool is unavailable exactly when it is
    bound into exactly one registered slice. *)
Theorem no_double_binding (calls : list (datetime * call)) :
  Forall lease_call calls →
  let self := run calls RAM.init in
  (∀ u1 u2 i, bound_in self u1 i → bound_in self u2 i → u1 = u2)
  ∧ (∀ r, r ∈ RAM._agg self →
       (Resource.available r = false
        ↔ ∃ u, bound_in self u (Resource.id r)
               ∧ ∀ u', bound_in self u' (Resource.id r) → u' = u)).
Proof.
  intros Hcalls self.
  destruct (run_consistent calls RAM.init Hcalls init_consistent)
    as [_ Hdis Hav].
  fold self in Hdis, Hav. split; [exact Hdis |].
  intros r Hr.
  assert (Hsh : (Resource.id r, Resource.available r) ∈ shadow (RAM._agg self)).
  { unfold shadow. apply list_elem_of_fmap. by exists r. }
  rewrite (Hav _ _ Hsh). split.
  - intros [u Hb]. exists u. split; [done |]. intros u' Hb'.
    by apply (Hdis u' u (Resource.id r)).
  - intros [u [Hb _]]. eauto.
Qed.

(** Slice a takes two resources, slice b the third, then slice a is
    deleted. *)
Lemma no_double_binding_witness :
  let self :=
    run [(100%N, CallAllocate "a" (Some [700%N]) (Some ["x"; "y"]));
         (200%N, CallAllocate "b" (Some [900%N]) (Some ["z"]));
         (300%N, CallDelete [("a", Some "slice")] (Some []))]
        RAM.init in
  (∀ u1 u2 i, bound_in self u1 i → bound_in self u2 i → u1 = u2)
  ∧ (∀ r, r ∈ RAM._agg self →
       (Resource.available r = false
        ↔ ∃ u, bound_in self u (Resource.id r)
               ∧ ∀ u', bound_in self u' (Resource.id r) → u' = u)).
Proof.
  apply (no_double_binding
           [(100%N, CallAllocate "a" (Some [700%N]) (Some ["x"; "y"]));
            (200%N, CallAllocate "b" (Some [900%N]) (Some ["z"]));
            (300%N, CallDelete [("a", Some "slice")] (Some []))]).
  repeat constructor.
Defined.

(** ** The pool keeps its three resources *)

Lemma ids_update (f : Resource.t → Resource.t) (i : nat)
    (heap : list Resource.t) :
  (∀ r, Resource.id (f r) = Resource.id r) →
  Resource.id <$> Resource.update i f heap = Resource.id <$> heap.
Proof.
  intros Hid. unfold Resource.update.
  change (map ?g heap) with (g <$> heap).
  rewrite <- list_fmap_compose. apply list_fmap_ext.
  intros _ r _. cbn. destruct (Nat.eqb (Resource.id r) i); [apply Hid | done].
Qed.

Lemma ids_for_each (f : Resource.t → Resource.t)
    (refs heap : list Resource.t) :
  (∀ r, Resource.id (f r) = Resource.id r) →
  Resource.id <$> RAM.for_each f refs heap = Resource.id <$> heap.
Proof.
  intros Hid. unfold RAM.for_each. revert heap.
  induction refs as [|r refs IH]; intros heap; [done |].
  cbn [foldl]. by rewrite IH, ids_update.
Qed.

Lemma ids_release (self : RAM.t) (u : string) (s : Slice.t) :
  Resource.id <$> RAM._agg (RAM.release self u s)
  = Resource.id <$> RAM._agg self.
Proof. unfold RAM.release, RAM.deallocate. cbn. by apply ids_for_each. Qed.

Lemma ids_expire_slices (now : datetime) (self : RAM.t) :
  Resource.id <$> RAM._agg (RAM.expire_slices now self)
  = Resource.id <$> RAM._agg self.
Proof.
  rewrite expire_slices_unfold. generalize (expired_slices now self).
  intros l. revert self. induction l as [|s l IH]; intros self; [done |].
  cbn [foldl]. by rewrite IH, ids_release.
Qed.

Lemma ids_bind (unbound : list string) (available heap : list Resource.t)
    (acc : list nat) (heap' : list Resource.t) (acc' : list nat) :
  RAM.bind unbound available heap acc = Some (heap', acc') →
  Resource.id <$> heap' = Resource.id <$> heap.
Proof.
  revert available heap acc.
  induction unbound as [|client_id unbound IH]; intros available heap acc.
  - by intros [= <- <-].
  - destruct available as [|r available]; [discriminate |].
    cbn [RAM.bind]. intros Hbind. rewrite (IH _ _ _ Hbind).
    by apply ids_update.
Qed.

Lemma ids_attach (resources : list nat) (s : Slice.t)
    (heap : list Resource.t) :
  Resource.id <$> (RAM.attach resources s heap).2 = Resource.id <$> heap.
Proof.
  unfold RAM.attach. revert s heap.
  induction resources as [|i resources IH]; intros s heap; [done |].
  cbn [foldl fst snd]. rewrite IH. by apply ids_update.
Qed.

Lemma ids_perform (now : datetime) (c : call) (self : RAM.t) :
  Resource.id <$> RAM._agg (perform now c self).1
  = Resource.id <$> RAM._agg self.
Proof.
  destruct c as [|creds options|slice_urn creds rspec|urns creds
                 |slice_urn creds|slice_urn creds t|slice_urn creds];
    cbn [perform].
  - apply ids_expire_slices.
  - rewrite <- (ids_expire_slices now self). unfold RAM.ListResources.
    cbv zeta. split_outcome; reflexivity.
  - rewrite <- (ids_expire_slices now self).
    destruct (Allocate_cases now self slice_urn creds rspec)
      as [[-> _]|(cs & unbound & heap & bound & _ & _ & _ & Hbind & -> & _)];
      [done |].
    cbn [RAM._agg]. rewrite ids_attach. by apply ids_bind in Hbind.
  - unfold RAM.Delete. split_outcome; try reflexivity.
    cbn [fst]. apply ids_release.
  - unfold RAM.SliverStatus. split_outcome; reflexivity.
  - unfold RAM.RenewSliver. cbv zeta. split_outcome; reflexivity.
  - unfold RAM.Shutdown. split_outcome; try reflexivity.
    cbn. by apply ids_for_each.
Qed.

(** Whatever is called, the pool holds resources 0, 1 and 2. *)
Lemma run_pool (calls : list (datetime * call)) :
  Resource.id <$> RAM._agg (run calls RAM.init) = [0; 1; 2].
Proof.
  assert (H : ∀ self, Resource.id <$> RAM._agg (run calls self)
                      = Resource.id <$> RAM._agg self).
  { unfold run. induction calls as [|[now c] calls IH]; intros self; [done |].
    cbn [foldl]. rewrite IH. apply ids_perform. }
  by rewrite H.
Qed.

Lemma NoDup_ids_inj (heap : list Resource.t) (r r' : Resource.t) :
  NoDup (Resource.id <$> heap) → r ∈ heap → r' ∈ heap →
  Resource.id r = Resource.id r' → r = r'.
Proof.
  induction heap as [|x heap IH]; intros Hnodup Hr Hr' Heq.
  - inversion Hr.
  - rewrite fmap_cons in Hnodup. apply NoDup_cons in Hnodup as [Hx Hnodup].
    apply elem_of_cons in Hr as [->|Hr];
      apply elem_of_cons in Hr' as [->|Hr']; try done.
    + exfalso. apply Hx. rewrite Heq. by apply list_elem_of_fmap_2.
    + exfalso. apply Hx. rewrite <- Heq. by apply list_elem_of_fmap_2.
    + by apply IH.
Qed.

(** With distinct ids in the pool, the catalog of a slice and the values of
    its resource dict hold the same resources; in particular the status
    RenewSliver tests is shutdown exactly when the status over the member
    resources is. *)
Lemma catalog_members (self : RAM.t) (u : string) (s : Slice.t)
    (r : Resource.t) :
  NoDup (Resource.id <$> RAM._agg self) →
  RAM._slices self !! u = Some s →
  r ∈ RAM.catalog self (Some u) ↔ r ∈ Slice.resources (RAM._agg self) s.
Proof.
  intros Hnodup Hreg. unfold RAM.catalog, Slice.resources. rewrite Hreg.
  rewrite list_elem_of_filter, list_elem_of_omap. split.
  - intros [Hmem Hin]. exists (Resource.id r). split; [done |].
    destruct (deref_is_Some (RAM._agg self) (Resource.id r)) as [r' Hr'];
      [by apply list_elem_of_fmap_2 |].
    destruct (deref_Some _ _ _ Hr') as [Hin' Hid].
    by rewrite <- (NoDup_ids_inj _ r r' Hnodup Hin Hin' (eq_sym Hid)) in Hr'.
  - intros [i [Hmem [Hin <-]%deref_Some]]. by split.
Qed.

Lemma catalog_status_shutdown (self : RAM.t) (u : string) (s : Slice.t) :
  NoDup (Resource.id <$> RAM._agg self) →
  RAM._slices self !! u = Some s →
  Slice.status (RAM._agg self) s (RAM.catalog self (Some u))
  = Resource.STATUS_SHUTDOWN
  ↔ slice_status self s = Resource.STATUS_SHUTDOWN.
Proof.
  intros Hnodup Hreg. unfold slice_status. rewrite !status_shutdown_iff.
  rewrite !map_fmap, !list_elem_of_fmap.
  by setoid_rewrite (catalog_members self u s _ Hnodup Hreg).
Qed.

(** * Further properties of the operations *)

(** ** The invariant under every operation *)

Lemma shadow_for_each_same (f : Resource.t → Resource.t)
    (refs heap : list Resource.t) :
  (∀ r, Resource.id (f r) = Resource.id r) →
  (∀ r, Resource.available (f r) = Resource.available r) →
  shadow (RAM.for_each f refs heap) = shadow heap.
Proof.
  intros Hid Hav. unfold RAM.for_each. revert heap.
  induction refs as [|r refs IH]; intros heap; [done |].
  cbn [foldl]. rewrite IH. by apply shadow_update_same.
Qed.

Lemma RenewSliver_cases (self : RAM.t) (slice_urn : string)
    (creds : option (list datetime)) (t : datetime) :
  (RAM.RenewSliver self slice_urn creds t).1 = self
  ∨ ∃ sliver,
      RAM._slices self !! slice_urn = Some sliver
      ∧ (RAM.RenewSliver self slice_urn creds t).1
        = {| RAM._slices :=
               <[slice_urn := Slice.set_expiration t sliver]> (RAM._slices self);
             RAM._agg := RAM._agg self |}.
Proof.
  unfold RAM.RenewSliver. destruct creds as [cs|]; [| by left].
  destruct (RAM._slices self !! slice_urn) as [sliver|] eqn:Hreg; [| by left].
  case_decide; [by left |]. cbv zeta.
  destruct (RAM.renew_scan cs t datetime_min); [| by left].
  right. by exists sliver.
Qed.

Lemma RenewSliver_consistent (self : RAM.t) (slice_urn : string)
    (creds : option (list datetime)) (t : datetime) :
  consistent self → consistent (RAM.RenewSliver self slice_urn creds t).1.
Proof.
  intros Hok.
  destruct (RenewSliver_cases self slice_urn creds t)
    as [->|(sliver & Hreg & ->)]; [done |].
  assert (Hb : ∀ u i,
    bound_in {| RAM._slices :=
                  <[slice_urn := Slice.set_expiration t sliver]>
                    (RAM._slices self);
                RAM._agg := RAM._agg self |} u i
    ↔ bound_in self u i).
  { intros u i. unfold bound_in. cbn [RAM._slices].
    destruct (decide (u = slice_urn)) as [->|Hne].
    - rewrite lookup_insert_eq, Hreg. split.
      + intros [s [[= <-] Hin]]. eauto.
      + intros [s [[= <-] Hin]]. eauto.
    - by rewrite lookup_insert_ne. }
  destruct Hok as [Hkey Hdis Hav]. split.
  - intros u s Hlook. cbn [RAM._slices] in Hlook.
    apply lookup_insert_Some in Hlook as [[<- <-]|[_ Hlook]]; [| by apply Hkey].
    cbn. by apply Hkey.
  - intros u1 u2 i H1%Hb H2%Hb. by apply (Hdis u1 u2 i).
  - intros i a Hin. setoid_rewrite Hb. by apply Hav.
Qed.

Lemma Shutdown_cases (self : RAM.t) (slice_urn : string)
    (creds : option (list datetime)) :
  (RAM.Shutdown self slice_urn creds).1 = self
  ∨ (RAM.Shutdown self slice_urn creds).1
    = {| RAM._slices := RAM._slices self;
         RAM._agg :=
           RAM.for_each (Resource.set_status Resource.STATUS_SHUTDOWN)
             (RAM.catalog self (Some slice_urn)) (RAM._agg self) |}.
Proof.
  unfold RAM.Shutdown. destruct creds; [| by left].
  case_decide; [by right | by left].
Qed.

Lemma Shutdown_consistent (self : RAM.t) (slice_urn : string)
    (creds : option (list datetime)) :
  consistent self → consistent (RAM.Shutdown self slice_urn creds).1.
Proof.
  intros Hok. destruct (Shutdown_cases self slice_urn creds) as [->| ->];
    [done |].
  destruct Hok as [Hkey Hdis Hav]. split; [done | done |].
  intros i a. cbn [RAM._agg]. rewrite shadow_for_each_same by done.
  apply Hav.
Qed.

Lemma perform_consistent (now : datetime) (c : call) (self : RAM.t) :
  consistent self → consistent (perform now c self).1.
Proof.
  intros Hok.
  destruct c as [|creds options|slice_urn creds rspec|urns creds
                 |slice_urn creds|slice_urn creds t|slice_urn creds];
    cbn [perform].
  - by apply expire_slices_consistent.
  - apply (expire_slices_consistent now) in Hok.
    unfold RAM.ListResources. cbv zeta. split_outcome; exact Hok.
  - by apply Allocate_consistent.
  - by apply Delete_consistent.
  - unfold RAM.SliverStatus. split_outcome; exact Hok.
  - by apply RenewSliver_consistent.
  - by apply Shutdown_consistent.
Qed.

Lemma run_all_consistent (calls : list (datetime * call)) (self : RAM.t) :
  consistent self → consistent (run calls self).
Proof.
  unfold run. revert self.
  induction calls as [|[now c] calls IH]; intros self Hok; [done |].
  cbn [foldl]. apply IH. by apply perform_consistent.
Qed.

Lemma run_pool_NoDup (calls : list (datetime * call)) :
  NoDup (Resource.id <$> RAM._agg (run calls RAM.init)).
Proof.
  rewrite run_pool. repeat constructor; rewrite ?elem_of_cons, ?elem_of_nil;
    intros H; destruct_or?; done.
Qed.

(** X1: after any sequence of calls of any of the seven operations on the
    initial manager, every registry entry sits under the URN of its slice,
    no resource is in two registered slices, a resource of the pool is
    unavailable exactly when some registered slice has it, and the pool
    still consists of the resources 0, 1 and 2. *)
Theorem every_operation_keeps_invariant (calls : list (datetime * call)) :
  let self := run calls RAM.init in
  (∀ u s, RAM._slices self !! u = Some s → Slice.urn s = u)
  ∧ (∀ u1 u2 i, bound_in self u1 i → bound_in self u2 i → u1 = u2)
  ∧ (∀ r, r ∈ RAM._agg self →
       (Resource.available r = false ↔ ∃ u, bound_in self u (Resource.id r)))
  ∧ Resource.id <$> RAM._agg self = [0; 1; 2].
Proof.
  intros self.
  destruct (run_all_consistent calls RAM.init init_consistent)
    as [Hkey Hdis Hav].
  fold self in Hkey, Hdis, Hav. repeat split.
  - exact Hkey.
  - exact Hdis.
  - apply (Hav (Resource.id r) (Resource.available r)).
    unfold shadow. apply list_elem_of_fmap. by exists r.
  - apply (Hav (Resource.id r) (Resource.available r)).
    unfold shadow. apply list_elem_of_fmap. by exists r.
  - apply run_pool.
Qed.

(** ** What the sweep does *)

(** A loop that applies an idempotent attribute update to the resources it
    is given changes exactly the resources with their ids. *)
Lemma for_each_fmap (f : Resource.t → Resource.t)
    (refs heap : list Resource.t) :
  (∀ r, Resource.id (f r) = Resource.id r) →
  (∀ r, f (f r) = f r) →
  RAM.for_each f refs heap
  = (fun r => if decide (Resource.id r ∈ Resource.id <$> refs)
              then f r else r) <$> heap.
Proof.
  intros Hid Hidem. unfold RAM.for_each. revert heap.
  induction refs as [|r0 refs IH]; intros heap.
  - cbn. rewrite <- (list_fmap_id heap) at 1. apply list_fmap_ext.
    intros _ r _. rewrite decide_False; [done | apply not_elem_of_nil].
  - cbn [foldl]. rewrite IH. unfold Resource.update.
    change (map ?g heap) with (g <$> heap).
    rewrite <- list_fmap_compose. apply list_fmap_ext. intros _ r _. cbn.
    destruct (Nat.eqb_spec (Resource.id r) (Resource.id r0)) as [Heq|Hne].
    + rewrite (decide_True (P := Resource.id r ∈ _ :: _))
        by (rewrite Heq; by left).
      rewrite Hid, Hidem. by case_decide.
    + destruct (decide (Resource.id r ∈ Resource.id <$> refs)) as [Hin|Hnin].
      * rewrite decide_True; [done | by right].
      * rewrite decide_False; [done |]. by intros [?|?]%elem_of_cons.
Qed.

Lemma release_pool (self : RAM.t) (u : string) (s : Slice.t) :
  RAM._agg (RAM.release self u s)
  = (fun r => if decide (Resource.id r ∈ Slice._resources s)
              then Resource.reset r else r) <$> RAM._agg self.
Proof.
  unfold RAM.release, RAM.deallocate. cbn [RAM._agg].
  rewrite for_each_fmap by done. apply list_fmap_ext. intros k r Hk.
  apply list_elem_of_lookup_2 in Hk.
  destruct (decide (Resource.id r ∈ Slice._resources s)) as [Hin|Hnin].
  - rewrite decide_True; [done |]. apply elem_of_resources_ids.
    split; [done | by apply list_elem_of_fmap_2].
  - rewrite decide_False; [done |].
    by intros [? _]%elem_of_resources_ids.
Qed.

Lemma release_all_pool (l : list Slice.t) (self : RAM.t) :
  RAM._agg (foldl (fun self s => RAM.release self (Slice.urn s) s) self l)
  = (fun r => if decide (Resource.id r ∈ l ≫= Slice._resources)
              then Resource.reset r else r) <$> RAM._agg self.
Proof.
  revert self. induction l as [|s0 l IH]; intros self.
  - cbn. rewrite <- (list_fmap_id (RAM._agg self)) at 1. apply list_fmap_ext.
    intros _ r _. rewrite decide_False; [done | apply not_elem_of_nil].
  - cbn [foldl]. rewrite IH, release_pool, <- list_fmap_compose.
    apply list_fmap_ext. intros _ r _. cbn.
    destruct (decide (Resource.id r ∈ Slice._resources s0)) as [Hin|Hnin].
    + rewrite (decide_True (P := _ ∈ (_ ++ _)%list))
        by (apply elem_of_app; by left).
      by case_decide.
    + destruct (decide (Resource.id r ∈ l ≫= Slice._resources)) as [Hl|Hl].
      * rewrite decide_True; [done | apply elem_of_app; by right].
      * rewrite decide_False; [done |]. by intros [?|?]%elem_of_app.
Qed.

Lemma elem_of_expired_ids (now : datetime) (self : RAM.t) (i : nat) :
  i ∈ expired_ids now self
  ↔ ∃ u s, RAM._slices self !! u = Some s
           ∧ (Slice.expiration s < now)%N ∧ i ∈ Slice._resources s.
Proof.
  unfold expired_ids. rewrite list_elem_of_bind. split.
  - intros [s [Hi [Hlt [u Hu]]%elem_of_expired_slices]]. eauto.
  - intros (u & s & Hu & Hlt & Hi). exists s. split; [done |].
    apply elem_of_expired_slices. eauto.
Qed.

(** X2: in a state reached by any sequence of calls, the sweep at [now]
    removes exactly the registry entries whose expiration is before [now]
    and keeps the others as they are; it resets exactly the resources that
    the removed slices hold and leaves every other resource as it is. *)
Theorem sweep_effect (calls : list (datetime * call)) (now : datetime) :
  let self := run calls RAM.init in
  let swept := RAM.expire_slices now self in
  (∀ u, RAM._slices swept !! u
        = match RAM._slices self !! u with
          | Some s => if decide (Slice.expiration s < now)%N
                      then None else Some s
          | None => None
          end)
  ∧ RAM._agg swept
    = (fun r => if decide (Resource.id r ∈ expired_ids now self)
                then Resource.reset r else r) <$> RAM._agg self
  ∧ (∀ i, i ∈ expired_ids now self
          ↔ ∃ u s, RAM._slices self !! u = Some s
                   ∧ (Slice.expiration s < now)%N ∧ i ∈ Slice._resources s).
Proof.
  intros self swept. split; [| split].
  - intros u. apply expire_slices_lookup.
    apply (run_all_consistent calls RAM.init init_consistent).
  - subst swept. rewrite expire_slices_unfold. apply release_all_pool.
  - apply elem_of_expired_ids.
Qed.

(** X3: in a state reached by any sequence of calls, a second sweep at the
    same or an earlier time changes nothing. *)
Theorem sweep_idempotent (calls : list (datetime * call))
    (now now' : datetime) :
  (now' ≤ now)%N →
  let swept := RAM.expire_slices now (run calls RAM.init) in
  RAM.expire_slices now' swept = swept.
Proof.
  intros Hle swept. apply expire_slices_idle. intros u s Hu. subst swept.
  rewrite expire_slices_lookup in Hu
    by apply (run_all_consistent calls RAM.init init_consistent).
  destruct (RAM._slices (run calls RAM.init) !! u) as [s'|]; [| done].
  case_decide as Hlt; [done |]. injection Hu as <-. lia.
Qed.

(** Slice a of [busy] expires at 700: the sweep at 800 takes it, and a
    sweep at 750 after that changes nothing. *)
Lemma sweep_idempotent_witness :
  let swept :=
    RAM.expire_slices 800%N
      (run [(100%N, CallAllocate "a" (Some [700%N]) (Some ["x"; "y"]))]
           RAM.init) in
  RAM.expire_slices 750%N swept = swept.
Proof.
  apply (sweep_idempotent
           [(100%N, CallAllocate "a" (Some [700%N]) (Some ["x"; "y"]))]
           800%N 750%N).
  lia.
Defined.

(** ** A successful allocation *)

Lemma deref_fmap (g : Resource.t → Resource.t) (heap : list Resource.t)
    (i : nat) :
  (∀ r, Resource.id (g r) = Resource.id r) →
  Resource.deref (g <$> heap) i = g <$> Resource.deref heap i.
Proof.
  intros Hid. unfold Resource.deref.
  induction heap as [|r heap IH]; [done |].
  rewrite fmap_cons. cbn [find]. rewrite Hid.
  destruct (Nat.eqb (Resource.id r) i); [done | exact IH].
Qed.

Lemma deref_self (heap : list Resource.t) (r : Resource.t) :
  NoDup (Resource.id <$> heap) → r ∈ heap →
  Resource.deref heap (Resource.id r) = Some r.
Proof.
  intros Hnodup Hin.
  destruct (deref_is_Some heap (Resource.id r)) as [r' Hr'];
    [by apply list_elem_of_fmap_2 |].
  destruct (deref_Some _ _ _ Hr') as [Hin' Hid].
  by rewrite <- (NoDup_ids_inj _ r r' Hnodup Hin Hin' (eq_sym Hid)) in Hr'.
Qed.

(** Looking up the ids of resources of the pool in the pool after an
    attribute update gives back these resources, updated. *)
Lemma omap_deref_fmap (g : Resource.t → Resource.t)
    (heap l : list Resource.t) :
  (∀ r, Resource.id (g r) = Resource.id r) →
  NoDup (Resource.id <$> heap) → l ⊆ heap →
  omap (Resource.deref (g <$> heap)) (Resource.id <$> l) = g <$> l.
Proof.
  intros Hid Hnodup. induction l as [|r l IH]; intros Hsub; [done |].
  rewrite !fmap_cons. cbn [omap list_omap].
  rewrite deref_fmap, deref_self by (done || by apply Hsub; left).
  cbn. f_equal. apply IH. intros x Hx. apply Hsub. by right.
Qed.

Lemma available_sublist (self : RAM.t) (n : nat) :
  take n (RAM.resources self (Some true)) `sublist_of` RAM._agg self.
Proof.
  etransitivity; [apply sublist_take |].
  unfold RAM.resources, RAM.catalog. apply sublist_filter.
Qed.

Lemma bind_pool (unbound : list string) (available heap : list Resource.t)
    (acc : list nat) (heap' : list Resource.t) (acc' : list nat) :
  NoDup (Resource.id <$> available) →
  RAM.bind unbound available heap acc = Some (heap', acc') →
  heap'
  = (fun r =>
       match (list_to_map (zip (Resource.id <$> available) unbound)
                : gmap nat string) !! Resource.id r with
       | Some c => Resource.set_available false (Resource.set_external_id c r)
       | None => r
       end) <$> heap.
Proof.
  revert available heap acc.
  induction unbound as [|c unbound IH]; intros available heap acc Hnodup.
  - intros [= <- <-]. rewrite <- (list_fmap_id heap) at 1.
    apply list_fmap_ext. intros _ r _.
    destruct (Resource.id <$> available); cbn; by rewrite lookup_empty.
  - destruct available as [|r0 available]; [discriminate |].
    cbn [RAM.bind]. intros Hbind. rewrite fmap_cons in Hnodup.
    apply NoDup_cons in Hnodup as [Hfresh Hnodup].
    rewrite (IH _ _ _ Hnodup Hbind). unfold Resource.update.
    change (map ?g heap) with (g <$> heap).
    rewrite <- list_fmap_compose. apply list_fmap_ext. intros _ r _.
    rewrite fmap_cons. cbn [zip zip_with list_to_map foldr compose].
    assert (Hnone : (list_to_map (zip (Resource.id <$> available) unbound)
                       : gmap nat string) !! Resource.id r0 = None).
    { apply not_elem_of_list_to_map_1.
      intros [[i c'] [Hi Hin]]%list_elem_of_fmap. cbn in Hi.
      apply elem_of_zip_l in Hin. apply Hfresh. by rewrite Hi. }
    destruct (Nat.eqb_spec (Resource.id r) (Resource.id r0)) as [Heq|Hne].
    + cbn [fst snd].
      change (Resource.id (Resource.set_available false
                             (Resource.set_external_id c r)))
        with (Resource.id r).
      by rewrite Heq, Hnone, lookup_insert_eq.
    + cbn [fst snd]. by rewrite lookup_insert_ne.
Qed.

Lemma attach_pool (ids : list nat) (s : Slice.t) (heap : list Resource.t) :
  (RAM.attach ids s heap).2
  = (fun r => if decide (Resource.id r ∈ ids)
              then Resource.set_state Resource.STATE_GENI_ALLOCATED r
              else r) <$> heap.
Proof.
  unfold RAM.attach. revert s heap.
  induction ids as [|i ids IH]; intros s heap.
  - cbn. rewrite <- (list_fmap_id heap) at 1. apply list_fmap_ext.
    intros _ r _. rewrite decide_False; [done | apply not_elem_of_nil].
  - cbn [foldl fst snd]. rewrite IH. unfold Resource.update.
    change (map ?g heap) with (g <$> heap).
    rewrite <- list_fmap_compose. apply list_fmap_ext. intros _ r _. cbn.
    destruct (Nat.eqb_spec (Resource.id r) i) as [Heq|Hne].
    + rewrite (decide_True (P := Resource.id r ∈ i :: ids))
        by (rewrite Heq; by left).
      cbn. by case_decide.
    + destruct (decide (Resource.id r ∈ ids)) as [Hin|Hnin].
      * rewrite decide_True; [done | by right].
      * rewrite decide_False; [done |]. by intros [?|?]%elem_of_cons.
Qed.

Lemma add_resources_NoDup (ids l0 : list nat) (u : string) (e : datetime) :
  NoDup (l0 ++ ids) →
  foldl Slice.add_resource (Slice.mk u e l0) ids = Slice.mk u e (l0 ++ ids).
Proof.
  revert l0. induction ids as [|i ids IH]; intros l0 Hnodup.
  - by rewrite app_nil_r.
  - cbn [foldl]. unfold Slice.add_resource at 2. cbn.
    rewrite decide_False.
    + rewrite IH; rewrite <- app_assoc; [done | exact Hnodup].
    + apply NoDup_app in Hnodup as (_ & Hdisj & _). intros Hin.
      apply (Hdisj i Hin). by left.
Qed.

Section Assignment.

Variable heap : list Resource.t.
Variable available : list Resource.t.
Variable unbound : list string.

Hypothesis pool_NoDup : NoDup (Resource.id <$> heap).
Hypothesis available_sub : available `sublist_of` heap.

Let chosen := take (length unbound) available.
Let ids := Resource.id <$> chosen.

Lemma chosen_sublist : chosen `sublist_of` heap.
Proof. etransitivity; [apply sublist_take | exact available_sub]. Qed.

Lemma ids_NoDup : NoDup ids.
Proof.
  apply (sublist_NoDup _ (Resource.id <$> heap)); [exact pool_NoDup |].
  apply fmap_sublist, chosen_sublist.
Qed.

Lemma ids_keys : (zip ids unbound).*1 = ids.
Proof.
  apply fst_zip. unfold ids, chosen. rewrite length_fmap, length_take. lia.
Qed.

Lemma assigned_lookup (k : nat) (r : Resource.t) :
  chosen !! k = Some r →
  ∃ c, unbound !! k = Some c
       ∧ (list_to_map (zip ids unbound) : gmap nat string) !! Resource.id r
         = Some c.
Proof.
  intros Hk.
  assert (Hlt : k < length unbound).
  { apply lookup_lt_Some in Hk. unfold chosen in Hk.
    rewrite length_take in Hk. lia. }
  destruct (lookup_lt_is_Some_2 unbound k Hlt) as [c Hc].
  exists c. split; [done |]. apply elem_of_list_to_map_1.
  - rewrite ids_keys. apply ids_NoDup.
  - apply (list_elem_of_lookup_2 _ k). apply lookup_zip_Some. split; [| done].
    unfold ids. by rewrite list_lookup_fmap, Hk.
Qed.

Lemma assigned_fields {B : Type} (f : Resource.t → B) (g : string → B) :
  (∀ c r, f (allocated c r) = g c) →
  (fun r =>
     f match (list_to_map (zip ids unbound) : gmap nat string)
             !! Resource.id r with
       | Some c => allocated c r
       | None => r
       end) <$> chosen
  = g <$> take (length chosen) unbound.
Proof.
  intros Hfg. apply list_eq. intros k. rewrite !list_lookup_fmap.
  destruct (chosen !! k) as [r|] eqn:Hk.
  - destruct (assigned_lookup k r Hk) as (c & Hc & HM).
    rewrite lookup_take_lt by (by eapply lookup_lt_Some).
    rewrite Hc. cbn. by rewrite HM, Hfg.
  - apply lookup_ge_None in Hk.
    by rewrite lookup_take_ge by done.
Qed.

End Assignment.

Lemma Allocate_binds (now : datetime) (self : RAM.t) (slice_urn : string)
    (creds : list datetime) (unbound : list string) :
  let swept := RAM.expire_slices now self in
  let available := RAM.resources swept (Some true) in
  let ids := Resource.id <$> take (length unbound) available in
  let expiration :=
    RAM.clamp (now + timedelta_seconds ALLOCATE_EXPIRATION_SECONDS)%N creds in
  NoDup (Resource.id <$> RAM._agg self) →
  RAM._slices swept !! slice_urn = None →
  (length unbound ≤ length available)%nat →
  RAM.Allocate now self slice_urn (Some creds) (Some unbound)
  = ({| RAM._slices :=
          <[slice_urn := Slice.mk slice_urn expiration ids]>
            (RAM._slices swept);
        RAM._agg := bound_pool ids unbound (RAM._agg swept) |},
     Return {| code := {| geni_code := 0; am_type := "gcf";
                          am_code := Some 0%Z |};
               val := VAllocated (Some <$> unbound)
                        ((fun i => {| geni_sliver := i;
                                      geni_expires := expiration;
                                      geni_allocation_status :=
                                        Resource.STATE_GENI_ALLOCATED |})
                           <$> ids);
               output := empty_text |}).
Proof.
  intros swept available ids expiration Hpool Hfree Hlen.
  assert (Hpool' : NoDup (Resource.id <$> RAM._agg swept))
    by (subst swept; by rewrite ids_expire_slices).
  assert (Hsub : available `sublist_of` RAM._agg swept)
    by (unfold available, RAM.resources, RAM.catalog; apply sublist_filter).
  assert (Hids : NoDup ids) by (by apply (ids_NoDup (RAM._agg swept))).
  assert (Hchosen : length (take (length unbound) available) = length unbound)
    by (rewrite length_take; lia).
  unfold RAM.Allocate. cbv zeta. fold swept. fold available.
  rewrite decide_False by (rewrite Hfree; by intros [? ?]).
  rewrite decide_False by lia.
  destruct (RAM.bind unbound available (RAM._agg swept) [])
    as [[heap bound]|] eqn:Hbind;
    [| by destruct (bind_total unbound available (RAM._agg swept) [] Hlen)
         as [? Hsome]; rewrite Hsome in Hbind].
  pose proof (bind_pool _ _ _ _ _ _
                (sublist_NoDup _ _ Hpool' (fmap_sublist _ _ _ Hsub)) Hbind)
    as Hheap.
  apply bind_shadow in Hbind as (ids' & -> & -> & _).
  rewrite app_nil_l. fold ids. fold expiration.
  rewrite <- (zip_with_take_l _ (Resource.id <$> available) unbound) in Hheap.
  rewrite <- fmap_take in Hheap. fold ids in Hheap.
  assert (Hfinal :
    (RAM.attach ids (Slice.init slice_urn expiration) heap).2
    = bound_pool ids unbound (RAM._agg swept)).
  { rewrite attach_pool, Hheap. unfold bound_pool.
    rewrite <- list_fmap_compose. apply list_fmap_ext. intros _ r _. cbn.
    destruct ((list_to_map (zip ids unbound) : gmap nat string)
                !! Resource.id r) as [c|] eqn:HM.
    - rewrite decide_True; [done |]. cbn.
      apply elem_of_list_to_map_2 in HM. by apply elem_of_zip_l in HM.
    - rewrite decide_False; [done |].
      apply not_elem_of_list_to_map in HM.
      pose proof (ids_keys available unbound) as HK. cbv zeta in HK.
      fold ids in HK. by rewrite HK in HM. }
  assert (Hslice :
    (RAM.attach ids (Slice.init slice_urn expiration) heap).1
    = Slice.mk slice_urn expiration ids).
  { rewrite attach_slice. unfold Slice.init.
    by rewrite add_resources_NoDup. }
  rewrite Hfinal, Hslice.
  assert (Hres :
    Slice.resources (bound_pool ids unbound (RAM._agg swept))
      (Slice.mk slice_urn expiration ids)
    = (fun r =>
         match (list_to_map (zip ids unbound) : gmap nat string)
               !! Resource.id r with
         | Some c => allocated c r
         | None => r
         end) <$> take (length unbound) available).
  { unfold Slice.resources, bound_pool. cbn [Slice._resources].
    apply omap_deref_fmap; [| done |].
    - intros r. by case_match.
    - apply sublist_subseteq.
      by apply (chosen_sublist (RAM._agg swept)). }
  set (G := fun r =>
         match (list_to_map (zip ids unbound) : gmap nat string)
               !! Resource.id r with
         | Some c => allocated c r
         | None => r
         end) in *.
  assert (Hman : Resource.external_id <$> (G <$> take (length unbound) available)
                 = Some <$> unbound).
  { rewrite <- list_fmap_compose.
    etransitivity;
      [apply (assigned_fields (RAM._agg swept) available unbound Hpool' Hsub
                Resource.external_id Some); done |].
    by rewrite Hchosen, firstn_all. }
  assert (Hsl :
    (fun r => {| geni_sliver := Resource.id r;
                 geni_expires := expiration;
                 geni_allocation_status := Resource.state r |})
      <$> (G <$> take (length unbound) available)
    = (fun i => {| geni_sliver := i;
                   geni_expires := expiration;
                   geni_allocation_status := Resource.STATE_GENI_ALLOCATED |})
        <$> ids).
  { unfold ids. rewrite <- !list_fmap_compose. apply list_fmap_ext.
    intros k r Hk.
    destruct (assigned_lookup (RAM._agg swept) available unbound Hpool' Hsub
                k r Hk) as (c & _ & HM).
    fold ids in HM. unfold compose, G. by rewrite HM. }
  unfold RAM.manifest_slice. rewrite Hres. cbn [Slice.expiration].
  change (map ?f (G <$> ?l)) with (f <$> (G <$> l)).
  by rewrite Hman, Hsl.
Qed.



(** ** Failures change nothing *)

(** X5: a call of any operation that raises or returns a nonzero code
    leaves the registry and the pool as they were when the operation began
    its own work: as the sweep left them for GetVersion, ListResources and
    Allocate, untouched for the others. *)
Theorem failure_changes_nothing (now : datetime) (c : call) (self : RAM.t) :
  failed (perform now c self).2 →
  (perform now c self).1 = entry_state now c self.
Proof.
  destruct c as [|creds options|slice_urn creds rspec|urns creds
                 |slice_urn creds|slice_urn creds t|slice_urn creds];
    cbn [perform entry_state].
  - done.
  - intros _. unfold RAM.ListResources. cbv zeta. by split_outcome.
  - intros Hfail.
    destruct (Allocate_cases now self slice_urn creds rspec)
      as [[-> _]|(_ & _ & _ & _ & _ & _ & _ & _ & _ & e & He & Hzero & _)];
      [done |].
    rewrite He in Hfail. by destruct Hfail.
  - unfold RAM.Delete. split_outcome; cbn; intros Hfail; done.
  - unfold RAM.SliverStatus. by split_outcome.
  - unfold RAM.RenewSliver. cbv zeta. split_outcome; cbn; intros Hfail; done.
  - unfold RAM.Shutdown. split_outcome; cbn; intros Hfail; done.
Qed.

(** A second Allocate for slice a of [busy], made at 200 while the slice is
    registered, is refused and leaves the swept state. *)
Lemma failure_changes_nothing_witness :
  (perform 200%N (CallAllocate "a" (Some [900%N]) (Some ["z"])) busy).1
  = entry_state 200%N (CallAllocate "a" (Some [900%N]) (Some ["z"])) busy.
Proof.
  apply (failure_changes_nothing 200%N
           (CallAllocate "a" (Some [900%N]) (Some ["z"])) busy).
  vm_compute. discriminate.
Defined.

(** ** Reusing a URN *)

(** X6: in a state reached by any sequence of calls, an Allocate call with
    verified credentials for a URN that is registered is refused with code
    17, leaving that slice registered as it was, exactly when the slice has
    not expired at the time of the call; when it has expired the sweep of
    the call frees the URN and code 17 is not returned. *)
Theorem allocate_duplicate_unless_expired (calls : list (datetime * call))
    (now : datetime) (slice_urn : string) (s : Slice.t)
    (creds : list datetime) (rspec : option (list string)) :
  let self := run calls RAM.init in
  let r := RAM.Allocate now self slice_urn (Some creds) rspec in
  RAM._slices self !! slice_urn = Some s →
  ((now ≤ Slice.expiration s)%N →
   r.2 = Return (RAM.errorResult 17
                   (Fmt "Slice %s already exists" [AStr slice_urn]) None)
   ∧ RAM._slices r.1 !! slice_urn = Some s)
  ∧ ((Slice.expiration s < now)%N →
     ∀ e, r.2 = Return e → geni_code (code e) ≠ 17%Z).
Proof.
  intros self r Hreg.
  pose proof (expire_slices_lookup now self slice_urn
                (consistent_keyed _ (run_all_consistent calls RAM.init
                                       init_consistent))) as Hlook.
  rewrite Hreg in Hlook. subst r. unfold RAM.Allocate. cbv zeta. split.
  - intros Hle. rewrite decide_False in Hlook by lia.
    rewrite decide_True by (rewrite Hlook; eauto). by split.
  - intros Hlt. rewrite decide_True in Hlook by done.
    rewrite decide_False by (rewrite Hlook; by intros [? ?]).
    split_outcome; cbn; intros e' [= <-]; done.
Qed.

(** Slice a of the state reached by one Allocate expires at 700: asked for
    again at 200 it is a duplicate, asked for again at 800 it is not. *)
Lemma allocate_duplicate_unless_expired_witness :
  let self := run [(100%N, CallAllocate "a" (Some [700%N]) (Some ["x"; "y"]))]
                  RAM.init in
  ((RAM.Allocate 200%N self "a" (Some [900%N]) (Some ["z"])).2
   = Return (RAM.errorResult 17 (Fmt "Slice %s already exists" [AStr "a"])
               None)
   ∧ RAM._slices (RAM.Allocate 200%N self "a" (Some [900%N]) (Some ["z"])).1
     !! "a" = Some (Slice.mk "a" 700%N [0; 1]))
  ∧ (∀ e, (RAM.Allocate 800%N self "a" (Some [900%N]) (Some ["z"])).2
          = Return e → geni_code (code e) ≠ 17%Z).
Proof.
  split.
  - refine (proj1 (allocate_duplicate_unless_expired
              [(100%N, CallAllocate "a" (Some [700%N]) (Some ["x"; "y"]))]
              200%N "a" (Slice.mk "a" 700%N [0; 1]) [900%N] (Some ["z"]) _) _).
    + vm_compute; reflexivity.
    + cbn; lia.
  - refine (proj2 (allocate_duplicate_unless_expired
              [(100%N, CallAllocate "a" (Some [700%N]) (Some ["x"; "y"]))]
              800%N "a" (Slice.mk "a" 700%N [0; 1]) [900%N] (Some ["z"]) _) _).
    + vm_compute; reflexivity.
    + cbn; lia.
Defined.

(** ** The expiration of a new slice *)

Lemma clamp_elem (expiration : datetime) (creds : list datetime) :
  RAM.clamp expiration creds ∈ expiration :: creds.
Proof.
  revert expiration. induction creds as [|c creds IH]; intros e.
  - by left.
  - change (RAM.clamp e (c :: creds))
      with (RAM.clamp (if (c <? e)%N then c else e) creds).
    specialize (IH (if (c <? e)%N then c else e)).
    apply elem_of_cons in IH as [->|IH].
    + destruct (c <? e)%N; [right; by left | by left].
    + right. by right.
Qed.

(** X7: the expiration Allocate computes is the least of the time of the
    call plus the allocation window and the expiries of the verified
    credentials: it is one of these values and exceeds none of them, so it
    does not depend on the order of the credentials. *)
Theorem allocate_expiration_is_minimum (start : datetime)
    (creds creds' : list datetime) :
  RAM.clamp start creds ∈ start :: creds
  ∧ (∀ x, x ∈ start :: creds → (RAM.clamp start creds ≤ x)%N)
  ∧ (creds ≡ₚ creds' → RAM.clamp start creds = RAM.clamp start creds').
Proof.
  assert (Hlow : ∀ cs x, x ∈ start :: cs → (RAM.clamp start cs ≤ x)%N).
  { intros cs x [->|Hx]%elem_of_cons;
      [apply clamp_le_start | by apply clamp_le_cred]. }
  split; [apply clamp_elem |]. split; [apply Hlow |].
  intros Hperm. apply N.le_antisymm.
  - apply Hlow. rewrite Hperm. apply clamp_elem.
  - apply Hlow. rewrite <- Hperm. apply clamp_elem.
Qed.

(** ** Deleting a slice *)

Lemma Delete_success (self : RAM.t) (slice_urn : string)
    (theslice : Slice.t) (urn_type : string)
    (rest : list (string * option string)) (creds : list datetime) :
  RAM._slices self !! slice_urn = Some theslice →
  slice_status self theslice ≠ Resource.STATUS_SHUTDOWN →
  Forall (fun u => u.2 = Some urn_type) rest →
  urn_type ≠ "sliver" →
  RAM.Delete self ((slice_urn, Some urn_type) :: rest) (Some creds)
  = ({| RAM._slices := delete slice_urn (RAM._slices self);
        RAM._agg :=
          (fun r => if decide (Resource.id r ∈ Slice._resources theslice)
                    then Resource.reset r else r) <$> RAM._agg self |},
     Return (RAM.successResult (VBool true))).
Proof.
  intros Hreg Hstatus Hrest Hty. unfold slice_status in Hstatus.
  unfold RAM.Delete.
  rewrite (mapM_same_type urn_type) by (constructor; [done | exact Hrest]).
  cbn [length]. rewrite remove_dups_replicate.
  rewrite decide_False by (simpl; lia).
  cbn [replicate]. rewrite decide_False by exact Hty.
  rewrite Hreg. rewrite decide_False by done.
  f_equal. rewrite <- (release_pool self slice_urn theslice). reflexivity.
Qed.


(** X8: a Delete call with verified credentials, whose URNs all have one
    type other than sliver, on a registered slice whose status is not
    shutdown, succeeds: the registry entry of the slice is removed and the
    others stay, every resource of the slice is reset (available,
    unconfigured, unallocated, no client id) and every other resource is
    left as it is. *)
Theorem delete_releases (self : RAM.t) (slice_urn : string)
    (theslice : Slice.t) (urn_type : string)
    (rest : list (string * option string)) (creds : list datetime) :
  RAM._slices self !! slice_urn = Some theslice →
  slice_status self theslice ≠ Resource.STATUS_SHUTDOWN →
  Forall (fun u => u.2 = Some urn_type) rest →
  urn_type ≠ "sliver" →
  RAM.Delete self ((slice_urn, Some urn_type) :: rest) (Some creds)
  = ({| RAM._slices := delete slice_urn (RAM._slices self);
        RAM._agg :=
          (fun r => if decide (Resource.id r ∈ Slice._resources theslice)
                    then Resource.reset r else r) <$> RAM._agg self |},
     Return (RAM.successResult (VBool true))).
Proof. apply Delete_success. Qed.

(** Deleting slice a of [busy] frees resources 0 and 1. *)
Lemma delete_releases_witness :
  RAM.Delete busy [("a", Some "slice")] (Some [])
  = ({| RAM._slices := delete "a" (RAM._slices busy);
        RAM._agg :=
          (fun r => if decide (Resource.id r ∈ [0; 1])
                    then Resource.reset r else r) <$> RAM._agg busy |},
     Return (RAM.successResult (VBool true))).
Proof.
  apply (delete_releases busy "a" (Slice.mk "a" 700%N [0; 1]) "slice" [] []).
  - vm_compute; reflexivity.
  - vm_compute; discriminate.
  - constructor.
  - discriminate.
Defined.

Lemma remove_dups_mixed (l : list string) (x y : string) :
  x ∈ l → y ∈ l → x ≠ y → 1 < length (remove_dups l).
Proof.
  intros Hx%elem_of_remove_dups Hy%elem_of_remove_dups Hne.
  destruct (remove_dups l) as [|a [|b k]]; cbn; [inversion Hx | | lia].
  apply list_elem_of_singleton in Hx, Hy. congruence.
Qed.

(** X9: Delete checks its URNs before it asks the verifier, so these
    answers do not depend on the credentials: a URN the parser rejects
    makes it raise; two URNs of different types get the error with code 1;
    URNs that are all of type sliver get the error with code 5; an empty
    list makes it raise on the first index.  The state is unchanged in
    each case. *)
Theorem delete_checks_urns_first (self : RAM.t)
    (urns : list (string * option string)) (creds : option (list datetime)) :
  ((∃ u, u ∈ urns ∧ u.2 = None) →
   RAM.Delete self urns creds = (self, Raise URNError))
  ∧ (∀ types x y,
       mapM snd urns = Some types → x ∈ types → y ∈ types → x ≠ y →
       RAM.Delete self urns creds
       = (self,
          Return (RAM.errorResult 1
            (Fmt ("Bad Arguments: URN types cannot be mixed."
                  ++ " Received types: %r") [ARepr types]) None)))
  ∧ (urns ≠ [] → Forall (fun u => u.2 = Some "sliver") urns →
     RAM.Delete self urns creds
     = (self,
        Return (RAM.errorResult 5
          (Fmt ("Server Error: teach me how to"
                ++ " delete individual slivers.") []) None)))
  ∧ (urns = [] → RAM.Delete self urns creds = (self, Raise IndexError)).
Proof.
  repeat split.
  - intros [u [Hin Hnone]]. unfold RAM.Delete.
    destruct (mapM snd urns) as [types|] eqn:Hm; [| done].
    apply mapM_Some in Hm.
    apply list_elem_of_lookup_1 in Hin as [k Hk].
    destruct (Forall2_lookup_l _ _ _ _ _ Hm Hk) as (ty & _ & Hty).
    congruence.
  - intros types x y Hm Hx Hy Hne. unfold RAM.Delete. rewrite Hm.
    by rewrite decide_True by (by apply (remove_dups_mixed types x y)).
  - intros Hne Hall. unfold RAM.Delete.
    rewrite (mapM_same_type "sliver") by done.
    destruct urns as [|[u ty] urns]; [done |].
    cbn [length]. rewrite remove_dups_replicate.
    rewrite decide_False by (simpl; lia).
    cbn [replicate]. by rewrite decide_True.
  - by intros ->.
Qed.

Lemma unknown_slice (self : RAM.t) (slice_urn : string)
    (creds : list datetime) (t : datetime) (urn_type : string) :
  RAM._slices self !! slice_urn = None →
  urn_type ≠ "sliver" →
  RAM.SliverStatus self slice_urn (Some creds)
  = (self, Return (RAM._no_such_slice slice_urn))
  ∧ RAM.RenewSliver self slice_urn (Some creds) t
    = (self, Return (RAM._no_such_slice slice_urn))
  ∧ RAM.Shutdown self slice_urn (Some creds)
    = (self, Return (RAM._no_such_slice slice_urn))
  ∧ RAM.Delete self [(slice_urn, Some urn_type)] (Some creds)
    = (self, Return (RAM._no_such_slice slice_urn)).
Proof.
  intros Hnone Hty.
  unfold RAM.SliverStatus, RAM.RenewSliver, RAM.Shutdown, RAM.Delete.
  rewrite Hnone. repeat split.
  rewrite (mapM_same_type urn_type) by (by constructor).
  cbn [length]. rewrite remove_dups_replicate.
  rewrite decide_False by (simpl; lia).
  cbn [replicate]. by rewrite decide_False.
Qed.

(** X10: once a slice has been deleted, its URN is unknown: SliverStatus,
    RenewSliver, Shutdown and a second Delete on it all return the error
    with code 12 (no such slice) and change nothing. *)
Theorem deleted_slice_is_gone (self : RAM.t) (slice_urn : string)
    (theslice : Slice.t) (urn_type : string) (creds creds' : list datetime)
    (t : datetime) :
  RAM._slices self !! slice_urn = Some theslice →
  slice_status self theslice ≠ Resource.STATUS_SHUTDOWN →
  urn_type ≠ "sliver" →
  let self' :=
    (RAM.Delete self [(slice_urn, Some urn_type)] (Some creds)).1 in
  RAM.SliverStatus self' slice_urn (Some creds')
  = (self', Return (RAM._no_such_slice slice_urn))
  ∧ RAM.RenewSliver self' slice_urn (Some creds') t
    = (self', Return (RAM._no_such_slice slice_urn))
  ∧ RAM.Shutdown self' slice_urn (Some creds')
    = (self', Return (RAM._no_such_slice slice_urn))
  ∧ RAM.Delete self' [(slice_urn, Some urn_type)] (Some creds')
    = (self', Return (RAM._no_such_slice slice_urn))
  ∧ geni_code (code (RAM._no_such_slice slice_urn)) = 12%Z.
Proof.
  intros Hreg Hstatus Hty self'.
  assert (Hnone : RAM._slices self' !! slice_urn = None).
  { subst self'.
    rewrite (Delete_success self slice_urn theslice urn_type [] creds)
      by (done || constructor).
    cbn. apply lookup_delete_eq. }
  destruct (unknown_slice self' slice_urn creds' t urn_type Hnone Hty)
    as (? & ? & ? & ?).
  by repeat split.
Qed.

(** Slice a of [busy], once deleted, is unknown to the four operations. *)
Lemma deleted_slice_is_gone_witness :
  let self' := (RAM.Delete busy [("a", Some "slice")] (Some [])).1 in
  RAM.SliverStatus self' "a" (Some [])
  = (self', Return (RAM._no_such_slice "a"))
  ∧ RAM.RenewSliver self' "a" (Some []) 900%N
    = (self', Return (RAM._no_such_slice "a"))
  ∧ RAM.Shutdown self' "a" (Some [])
    = (self', Return (RAM._no_such_slice "a"))
  ∧ RAM.Delete self' [("a", Some "slice")] (Some [])
    = (self', Return (RAM._no_such_slice "a"))
  ∧ geni_code (code (RAM._no_such_slice "a")) = 12%Z.
Proof.
  apply (deleted_slice_is_gone busy "a" (Slice.mk "a" 700%N [0; 1]) "slice"
           [] [] 900%N).
  - vm_compute; reflexivity.
  - vm_compute; discriminate.
  - discriminate.
Defined.

(** ** Shutting a slice down *)

Lemma Shutdown_success (self : RAM.t) (slice_urn : string) (s : Slice.t)
    (creds : list datetime) :
  RAM._slices self !! slice_urn = Some s →
  RAM.Shutdown self slice_urn (Some creds)
  = ({| RAM._slices := RAM._slices self;
        RAM._agg :=
          (fun r => if decide (Resource.id r ∈ Slice._resources s)
                    then Resource.set_status Resource.STATUS_SHUTDOWN r
                    else r) <$> RAM._agg self |},
     Return (RAM.successResult (VBool true))).
Proof.
  intros Hreg. unfold RAM.Shutdown.
  rewrite decide_True by (rewrite Hreg; eauto).
  f_equal. f_equal. rewrite for_each_fmap by done.
  apply list_fmap_ext. intros k r Hk. apply list_elem_of_lookup_2 in Hk.
  unfold RAM.catalog. rewrite Hreg.
  destruct (decide (Resource.id r ∈ Slice._resources s)) as [Hin|Hnin].
  - rewrite decide_True; [done |]. apply list_elem_of_fmap. exists r.
    split; [done |]. by apply list_elem_of_filter.
  - rewrite decide_False; [done |].
    intros [r' [Heq [Hmem _]%list_elem_of_filter]]%list_elem_of_fmap.
    by rewrite Heq in Hnin.
Qed.

(** X11: Shutdown with verified credentials on a registered slice succeeds
    and sets the status of every resource of the slice to shutdown; it
    changes no other attribute, no other resource and nothing in the
    registry.
    Here [catalog] of a slice URN is as modelled above. *)
Theorem shutdown_marks_members (self : RAM.t) (slice_urn : string)
    (s : Slice.t) (creds : list datetime) :
  RAM._slices self !! slice_urn = Some s →
  RAM.Shutdown self slice_urn (Some creds)
  = ({| RAM._slices := RAM._slices self;
        RAM._agg :=
          (fun r => if decide (Resource.id r ∈ Slice._resources s)
                    then Resource.set_status Resource.STATUS_SHUTDOWN r
                    else r) <$> RAM._agg self |},
     Return (RAM.successResult (VBool true))).
Proof. apply Shutdown_success. Qed.

(** Shutting down slice a of [busy] marks resources 0 and 1. *)
Lemma shutdown_marks_members_witness :
  RAM.Shutdown busy "a" (Some [])
  = ({| RAM._slices := RAM._slices busy;
        RAM._agg :=
          (fun r => if decide (Resource.id r ∈ [0; 1])
                    then Resource.set_status Resource.STATUS_SHUTDOWN r
                    else r) <$> RAM._agg busy |},
     Return (RAM.successResult (VBool true))).
Proof.
  apply (shutdown_marks_members busy "a" (Slice.mk "a" 700%N [0; 1]) []).
  vm_compute; reflexivity.
Defined.

Lemma shutdown_pool_status (self : RAM.t) (s : Slice.t) (r : Resource.t) :
  r ∈ RAM._agg self → Resource.id r ∈ Slice._resources s →
  let heap' :=
    (fun r => if decide (Resource.id r ∈ Slice._resources s)
              then Resource.set_status Resource.STATUS_SHUTDOWN r
              else r) <$> RAM._agg self in
  Resource.STATUS_SHUTDOWN ∈ map Resource.status (Slice.resources heap' s)
  ∧ Resource.STATUS_SHUTDOWN
    ∈ map Resource.status
        (filter (fun r => Resource.id r ∈ Slice._resources s) heap').
Proof.
  intros Hin Hmem heap'. rewrite !map_fmap. split.
  - destruct (deref_is_Some (RAM._agg self) (Resource.id r)) as [r0 Hr0];
      [by apply list_elem_of_fmap_2 |].
    destruct (deref_Some _ _ _ Hr0) as [_ Hid0].
    apply list_elem_of_fmap.
    exists (Resource.set_status Resource.STATUS_SHUTDOWN r0).
    split; [done |]. unfold Slice.resources. apply list_elem_of_omap.
    exists (Resource.id r). split; [done |]. subst heap'.
    rewrite deref_fmap by (intros x; by case_decide).
    rewrite Hr0. cbn. rewrite decide_True; [done | by rewrite Hid0].
  - apply list_elem_of_fmap.
    exists (Resource.set_status Resource.STATUS_SHUTDOWN r).
    split; [done |]. apply list_elem_of_filter. split; [done |].
    subst heap'. apply list_elem_of_fmap. exists r.
    by rewrite decide_True.
Qed.

(** X12: after Shutdown of a registered slice that holds at least one
    resource of the pool, Delete and RenewSliver on that slice are refused
    with code 11 (unavailable) and change nothing, whatever credentials
    and expiration they come with.
    Here [catalog] of a slice URN is as modelled above. *)
Theorem shutdown_blocks_delete_and_renew (self : RAM.t) (slice_urn : string)
    (s : Slice.t) (r : Resource.t) (urn_type : string)
    (creds creds' : list datetime) (t : datetime) :
  RAM._slices self !! slice_urn = Some s →
  r ∈ RAM._agg self → Resource.id r ∈ Slice._resources s →
  urn_type ≠ "sliver" →
  let self' := (RAM.Shutdown self slice_urn (Some creds)).1 in
  RAM.Delete self' [(slice_urn, Some urn_type)] (Some creds')
  = (self',
     Return (RAM.errorResult 11
       (Fmt "Unavailable: Slice %s is unavailable." [AStr slice_urn]) None))
  ∧ RAM.RenewSliver self' slice_urn (Some creds') t
    = (self',
       Return (RAM.errorResult 11
         (Fmt "Unavailable: Slice %s is unavailable." [AStr slice_urn]) None)).
Proof.
  intros Hreg Hin Hmem Hty self'. subst self'.
  rewrite (Shutdown_success self slice_urn s creds Hreg). cbn [fst].
  destruct (shutdown_pool_status self s r Hin Hmem) as [Hown Hcat].
  split.
  - unfold RAM.Delete.
    rewrite (mapM_same_type urn_type) by (by constructor).
    cbn [length]. rewrite remove_dups_replicate.
    rewrite decide_False by (simpl; lia).
    cbn [replicate]. rewrite decide_False by exact Hty.
    cbn [RAM._slices RAM._agg]. rewrite Hreg.
    by rewrite decide_True by (by apply status_shutdown_iff).
  - unfold RAM.RenewSliver, RAM.catalog. cbn [RAM._slices RAM._agg].
    rewrite Hreg.
    by rewrite decide_True by (by apply status_shutdown_iff).
Qed.

(** Slice a of [busy] holds resource 0; once shut down it can be neither
    deleted nor renewed. *)
Lemma shutdown_blocks_delete_and_renew_witness :
  let self' := (RAM.Shutdown busy "a" (Some [])).1 in
  RAM.Delete self' [("a", Some "slice")] (Some [])
  = (self',
     Return (RAM.errorResult 11
       (Fmt "Unavailable: Slice %s is unavailable." [AStr "a"]) None))
  ∧ RAM.RenewSliver self' "a" (Some [900%N]) 800%N
    = (self',
       Return (RAM.errorResult 11
         (Fmt "Unavailable: Slice %s is unavailable." [AStr "a"]) None)).
Proof.
  apply (shutdown_blocks_delete_and_renew busy "a"
           (Slice.mk "a" 700%N [0; 1])
           (Resource.mk 0 (Some "x") false Resource.STATUS_UNCONFIGURED
              Resource.STATE_GENI_ALLOCATED)
           "slice" [] [900%N] 800%N).
  - vm_compute; reflexivity.
  - vm_compute. by left.
  - cbn. by left.
  - discriminate.
Defined.

(** X13: Shutdown of a registered slice without resources changes neither
    the pool nor the registry; the status of the slice stays ready, and a
    Delete that follows succeeds and removes the slice.
    Here [catalog] of a slice URN is as modelled above. *)
Theorem shutdown_without_resources (self : RAM.t) (slice_urn : string)
    (s : Slice.t) (urn_type : string) (creds creds' : list datetime) :
  RAM._slices self !! slice_urn = Some s →
  Slice._resources s = [] →
  urn_type ≠ "sliver" →
  let self' := (RAM.Shutdown self slice_urn (Some creds)).1 in
  RAM._agg self' = RAM._agg self
  ∧ RAM._slices self' = RAM._slices self
  ∧ slice_status self' s = Resource.STATUS_READY
  ∧ (RAM.Delete self' [(slice_urn, Some urn_type)] (Some creds')).2
    = Return (RAM.successResult (VBool true))
  ∧ RAM._slices
      (RAM.Delete self' [(slice_urn, Some urn_type)] (Some creds')).1
    !! slice_urn = None.
Proof.
  intros Hreg Hnone Hty self'. subst self'.
  rewrite (Shutdown_success self slice_urn s creds Hreg). cbn [fst].
  assert (Hpool :
    (fun r => if decide (Resource.id r ∈ Slice._resources s)
              then Resource.set_status Resource.STATUS_SHUTDOWN r
              else r) <$> RAM._agg self = RAM._agg self).
  { rewrite <- (list_fmap_id (RAM._agg self)) at 2. apply list_fmap_ext.
    intros _ r _. rewrite Hnone.
    rewrite decide_False; [done | apply not_elem_of_nil]. }
  rewrite Hpool.
  assert (Hstatus :
    slice_status {| RAM._slices := RAM._slices self;
                    RAM._agg := RAM._agg self |} s
    = Resource.STATUS_READY).
  { unfold slice_status, Slice.status, Slice.resources. cbn [RAM._agg].
    by rewrite Hnone. }
  split; [done |]. split; [done |]. split; [exact Hstatus |].
  rewrite (Delete_success _ slice_urn s urn_type [] creds');
    [| done | by rewrite Hstatus | constructor | done].
  split; [done |]. cbn. apply lookup_delete_eq.
Qed.

(** A slice allocated without any node is shut down, and deleted all the
    same. *)
Lemma shutdown_without_resources_witness :
  let self := (RAM.Allocate 100%N RAM.init "e" (Some [700%N]) (Some [])).1 in
  let self' := (RAM.Shutdown self "e" (Some [])).1 in
  RAM._agg self' = RAM._agg self
  ∧ RAM._slices self' = RAM._slices self
  ∧ slice_status self' (Slice.mk "e" 700%N []) = Resource.STATUS_READY
  ∧ (RAM.Delete self' [("e", Some "slice")] (Some [])).2
    = Return (RAM.successResult (VBool true))
  ∧ RAM._slices (RAM.Delete self' [("e", Some "slice")] (Some [])).1
    !! "e" = None.
Proof.
  apply (shutdown_without_resources
           (RAM.Allocate 100%N RAM.init "e" (Some [700%N]) (Some [])).1
           "e" (Slice.mk "e" 700%N []) "slice" [] []).
  - vm_compute; reflexivity.
  - reflexivity.
  - discriminate.
Defined.

(** ** Renewing a slice *)

(** X14: whatever it is called with, RenewSliver touches nothing but the
    expiration of the slice it names: the pool is as it was, every other
    registry entry is as it was, the same URNs are registered, and the
    named slice keeps its URN and its resources. *)
Theorem renew_changes_only_the_expiration (self : RAM.t)
    (slice_urn : string) (creds : option (list datetime)) (t : datetime) :
  let self' := (RAM.RenewSliver self slice_urn creds t).1 in
  RAM._agg self' = RAM._agg self
  ∧ (∀ u, u ≠ slice_urn → RAM._slices self' !! u = RAM._slices self !! u)
  ∧ Slice._resources <$> RAM._slices self' !! slice_urn
    = Slice._resources <$> RAM._slices self !! slice_urn
  ∧ Slice.urn <$> RAM._slices self' !! slice_urn
    = Slice.urn <$> RAM._slices self !! slice_urn.
Proof.
  intros self'. subst self'.
  destruct (RenewSliver_cases self slice_urn creds t)
    as [->|(sliver & Hreg & ->)]; [done |].
  cbn [RAM._agg RAM._slices]. repeat split.
  - intros u Hne. by rewrite lookup_insert_ne.
  - by rewrite lookup_insert_eq, Hreg.
  - by rewrite lookup_insert_eq, Hreg.
Qed.

Lemma renew_scan_perm (creds creds' : list datetime) (t : datetime) :
  creds ≡ₚ creds' →
  (RAM.renew_scan creds t datetime_min = inl tt
   ↔ RAM.renew_scan creds' t datetime_min = inl tt).
Proof.
  intros Hperm. split; intros [c [Hin Hle]]%renew_scan_inl;
    apply renew_scan_found; exists c; split; try done.
  - by rewrite <- Hperm.
  - by rewrite Hperm.
Qed.

(** X15: the order of the verified credentials decides neither whether
    RenewSliver succeeds nor the state it leaves: for two orderings of the
    same credentials the code returned and the resulting state are the
    same. *)
Theorem renew_order_independent (self : RAM.t) (slice_urn : string)
    (creds creds' : list datetime) (t : datetime) :
  creds ≡ₚ creds' →
  (RAM.RenewSliver self slice_urn (Some creds) t).1
  = (RAM.RenewSliver self slice_urn (Some creds') t).1
  ∧ ∀ e e',
      (RAM.RenewSliver self slice_urn (Some creds) t).2 = Return e →
      (RAM.RenewSliver self slice_urn (Some creds') t).2 = Return e' →
      geni_code (code e) = geni_code (code e').
Proof.
  intros Hperm. pose proof (renew_scan_perm creds creds' t Hperm) as Hscan.
  unfold RAM.RenewSliver.
  destruct (RAM._slices self !! slice_urn) as [sliver|];
    [| split; [done | by intros e e' [= <-] [= <-]]].
  case_decide; [split; [done | by intros e e' [= <-] [= <-]] |].
  cbv zeta.
  destruct (RAM.renew_scan creds t datetime_min) as [[]|m] eqn:H1;
    destruct (RAM.renew_scan creds' t datetime_min) as [[]|m'] eqn:H2.
  - split; [done | by intros e e' [= <-] [= <-]].
  - destruct Hscan as [Hscan _]. by specialize (Hscan eq_refl).
  - destruct Hscan as [_ Hscan]. by specialize (Hscan eq_refl).
  - split; [done | by intros e e' [= <-] [= <-]].
Qed.

(** The renewal of slice a of [busy] to 850 with credentials expiring at
    800 and 900, in both orders. *)
Lemma renew_order_independent_witness :
  (RAM.RenewSliver busy "a" (Some [800%N; 900%N]) 850%N).1
  = (RAM.RenewSliver busy "a" (Some [900%N; 800%N]) 850%N).1
  ∧ ∀ e e',
      (RAM.RenewSliver busy "a" (Some [800%N; 900%N]) 850%N).2 = Return e →
      (RAM.RenewSliver busy "a" (Some [900%N; 800%N]) 850%N).2 = Return e' →
      geni_code (code e) = geni_code (code e').
Proof.
  apply (renew_order_independent busy "a" [800%N; 900%N] [900%N; 800%N]
           850%N).
  apply perm_swap.
Defined.

(** ** Listing the resources *)




(** ** Available resources are fresh *)

Lemma Allocate_state (now : datetime) (self : RAM.t) (slice_urn : string)
    (creds : option (list datetime)) (rspec : option (list string)) :
  NoDup (Resource.id <$> RAM._agg self) →
  let swept := RAM.expire_slices now self in
  let available := RAM.resources swept (Some true) in
  (RAM.Allocate now self slice_urn creds rspec).1 = swept
  ∨ ∃ cs unbound,
      creds = Some cs ∧ rspec = Some unbound
      ∧ RAM._slices swept !! slice_urn = None
      ∧ (length unbound ≤ length available)%nat
      ∧ (RAM.Allocate now self slice_urn creds rspec).1
        = {| RAM._slices :=
               <[slice_urn :=
                   Slice.mk slice_urn
                     (RAM.clamp
                        (now + timedelta_seconds ALLOCATE_EXPIRATION_SECONDS)%N
                        cs)
                     (Resource.id <$> take (length unbound) available)]>
                 (RAM._slices swept);
             RAM._agg :=
               bound_pool (Resource.id <$> take (length unbound) available)
                 unbound (RAM._agg swept) |}.
Proof.
  intros Hpool swept available.
  destruct creds as [cs|]; [| by left].
  destruct (RAM._slices swept !! slice_urn) as [s|] eqn:Hfree.
  { left. unfold RAM.Allocate. cbv zeta. fold swept.
    by rewrite decide_True by (rewrite Hfree; eauto). }
  destruct rspec as [unbound|].
  2:{ left. unfold RAM.Allocate. cbv zeta. fold swept.
      by rewrite decide_False by (rewrite Hfree; by intros [? ?]). }
  destruct (decide (length available < length unbound)) as [Hlt|Hge].
  { left. unfold RAM.Allocate. cbv zeta. fold swept. fold available.
    rewrite decide_False by (rewrite Hfree; by intros [? ?]).
    by rewrite decide_True. }
  right. exists cs, unbound.
  split; [done |]. split; [done |]. split; [done |]. split; [lia |].
  by rewrite (Allocate_binds now self slice_urn cs unbound Hpool Hfree)
    by (unfold available, swept in Hge; lia).
Qed.

Lemma init_idle : idle RAM.init.
Proof.
  intros r Hr _. cbn in Hr. rewrite !elem_of_cons, elem_of_nil in Hr.
  destruct_or!; by subst.
Qed.

Lemma expire_slices_idle_pool (now : datetime) (self : RAM.t) :
  idle self → idle (RAM.expire_slices now self).
Proof.
  intros Hidle r'. rewrite expire_slices_unfold, release_all_pool.
  intros [r [-> Hr]]%list_elem_of_fmap. case_decide; [by intros _ |].
  by apply Hidle.
Qed.

Lemma bound_pool_elem (ids : list nat) (unbound : list string)
    (heap : list Resource.t) (r' : Resource.t) :
  r' ∈ bound_pool ids unbound heap →
  r' ∈ heap ∨ Resource.available r' = false.
Proof.
  unfold bound_pool. intros [r [-> Hr]]%list_elem_of_fmap.
  destruct (_ !! _); [by right | by left].
Qed.

Lemma perform_idle (now : datetime) (c : call) (self : RAM.t) :
  consistent self → NoDup (Resource.id <$> RAM._agg self) →
  idle self → idle (perform now c self).1.
Proof.
  intros Hok Hpool Hidle.
  destruct c as [|creds options|slice_urn creds rspec|urns creds
                 |slice_urn creds|slice_urn creds t|slice_urn creds];
    cbn [perform].
  - by apply expire_slices_idle_pool.
  - apply (expire_slices_idle_pool now) in Hidle.
    unfold RAM.ListResources. cbv zeta. split_outcome; exact Hidle.
  - apply (expire_slices_idle_pool now) in Hidle.
    destruct (Allocate_state now self slice_urn creds rspec Hpool)
      as [->|(cs & unbound & _ & _ & _ & _ & ->)]; [done |].
    intros r' Hr' Hav. cbn [RAM._agg] in Hr'.
    apply bound_pool_elem in Hr' as [Hr'|Hr']; [by apply Hidle | congruence].
  - unfold RAM.Delete. split_outcome; try exact Hidle. cbn [fst].
    intros r'. rewrite release_pool.
    intros [r [-> Hr]]%list_elem_of_fmap. case_decide; [by intros _ |].
    by apply Hidle.
  - unfold RAM.SliverStatus. split_outcome; exact Hidle.
  - destruct (RenewSliver_cases self slice_urn creds t)
      as [->|(sliver & _ & ->)]; exact Hidle.
  - destruct creds as [cs|]; [| exact Hidle].
    destruct (RAM._slices self !! slice_urn) as [s|] eqn:Hreg.
    + rewrite (Shutdown_success self slice_urn s cs Hreg). cbn [fst].
      intros r'. cbn [RAM._agg].
      intros [r [-> Hr]]%list_elem_of_fmap. case_decide as Hmem.
      * cbn. intros Hav. exfalso.
        assert (Hsh : (Resource.id r, Resource.available r)
                      ∈ shadow (RAM._agg self)).
        { unfold shadow. apply list_elem_of_fmap. by exists r. }
        pose proof (consistent_available _ Hok _ _ Hsh) as [_ Hfalse].
        rewrite Hfalse in Hav; [done |]. exists slice_urn, s. by split.
      * by apply Hidle.
    + unfold RAM.Shutdown.
      rewrite decide_False by (rewrite Hreg; by intros [? ?]). exact Hidle.
Qed.

Lemma run_idle (calls : list (datetime * call)) :
  idle (run calls RAM.init).
Proof.
  assert (H : ∀ self, consistent self →
                NoDup (Resource.id <$> RAM._agg self) → idle self →
                idle (run calls self)).
  { unfold run. induction calls as [|[now c] calls IH];
      intros self Hok Hpool Hidle; [done |].
    cbn [foldl]. apply IH.
    - by apply perform_consistent.
    - by rewrite ids_perform.
    - by apply perform_idle. }
  apply H; [apply init_consistent | | apply init_idle].
  apply (run_pool_NoDup []).
Qed.

(** X17: in a state reached by any sequence of calls, every available
    resource of the pool is as a reset leaves it: unconfigured,
    unallocated and without a client id.
    Here [FakeVM] and [Resource.reset] are as modelled above. *)
Theorem available_resources_are_fresh (calls : list (datetime * call))
    (r : Resource.t) :
  r ∈ RAM._agg (run calls RAM.init) →
  Resource.available r = true →
  Resource.status r = Resource.STATUS_UNCONFIGURED
  ∧ Resource.state r = Resource.STATE_GENI_UNALLOCATED
  ∧ Resource.external_id r = None.
Proof.
  intros Hr Hav. pose proof (run_idle calls r Hr Hav) as Hp.
  unfold pristine in Hp. rewrite <- Hp. by repeat split.
Qed.

(** Resource 2 is available after slice a has taken two resources. *)
Lemma available_resources_are_fresh_witness :
  Resource.status (RAM.FakeVM 2) = Resource.STATUS_UNCONFIGURED
  ∧ Resource.state (RAM.FakeVM 2) = Resource.STATE_GENI_UNALLOCATED
  ∧ Resource.external_id (RAM.FakeVM 2) = None.
Proof.
  apply (available_resources_are_fresh
           [(100%N, CallAllocate "a" (Some [700%N]) (Some ["x"; "y"]))]
           (RAM.FakeVM 2)).
  - vm_compute. right. right. by left.
  - reflexivity.
Defined.

(** ** Allocating and deleting *)

Section RoundTrip.

Variable heap : list Resource.t.
Variable available : list Resource.t.
Variable unbound : list string.

Hypothesis pool_NoDup : NoDup (Resource.id <$> heap).
Hypothesis available_sub : available `sublist_of` heap.
Hypothesis available_fresh : ∀ r, r ∈ available → pristine r.
Hypothesis enough : (length unbound ≤ length available)%nat.

Let chosen := take (length unbound) available.
Let ids := Resource.id <$> chosen.

Lemma bound_pool_resources (u : string) (e : datetime) :
  Slice.resources (bound_pool ids unbound heap) (Slice.mk u e ids)
  = (fun r =>
       match (list_to_map (zip ids unbound) : gmap nat string)
             !! Resource.id r with
       | Some c => allocated c r
       | None => r
       end) <$> chosen.
Proof.
  unfold Slice.resources, bound_pool. cbn [Slice._resources].
  apply omap_deref_fmap; [| done |].
  - intros r. by case_match.
  - apply sublist_subseteq. by apply chosen_sublist.
Qed.

Lemma bound_pool_status (u : string) (e : datetime) :
  Slice.status (bound_pool ids unbound heap) (Slice.mk u e ids)
    (Slice.resources (bound_pool ids unbound heap) (Slice.mk u e ids))
  ≠ Resource.STATUS_SHUTDOWN.
Proof.
  rewrite status_shutdown_iff, bound_pool_resources, map_fmap.
  rewrite <- list_fmap_compose.
  intros [r [Hst Hr]]%list_elem_of_fmap.
  assert (Hp : pristine r).
  { apply available_fresh. eapply elem_of_sublist; [exact Hr |].
    apply sublist_take. }
  unfold pristine in Hp. rewrite <- Hp in Hst. cbn in Hst.
  by destruct (_ !! _).
Qed.

Lemma bound_pool_reset :
  (fun r => if decide (Resource.id r ∈ ids) then Resource.reset r else r)
    <$> bound_pool ids unbound heap
  = heap.
Proof.
  unfold bound_pool. rewrite <- list_fmap_compose.
  rewrite <- (list_fmap_id heap) at 2. apply list_fmap_ext.
  intros k r Hk. apply list_elem_of_lookup_2 in Hk. cbn.
  destruct ((list_to_map (zip ids unbound) : gmap nat string)
              !! Resource.id r) as [c|] eqn:HM.
  - assert (Hin : Resource.id r ∈ ids).
    { apply elem_of_list_to_map_2 in HM. by apply elem_of_zip_l in HM. }
    cbn. rewrite decide_True by done.
    apply list_elem_of_fmap in Hin as [r0 [Hid Hr0]].
    assert (r = r0) as <-.
    { apply (NoDup_ids_inj heap); try done.
      eapply elem_of_sublist; [exact Hr0 |]. by apply chosen_sublist. }
    change (pristine r).
    apply available_fresh. eapply elem_of_sublist; [exact Hr0 |].
    apply sublist_take.
  - rewrite decide_False; [done |].
    apply not_elem_of_list_to_map in HM.
    pose proof (ids_keys available unbound) as HK. cbv zeta in HK.
    unfold ids, chosen in *. by rewrite HK in HM.
Qed.

End RoundTrip.

Lemma swept_available_fresh (calls : list (datetime * call)) (now : datetime)
    (r : Resource.t) :
  r ∈ RAM.resources (RAM.expire_slices now (run calls RAM.init)) (Some true) →
  pristine r.
Proof.
  unfold RAM.resources, RAM.catalog. intros [Hav Hr]%list_elem_of_filter.
  by apply (expire_slices_idle_pool now _ (run_idle calls)).
Qed.

(** X18: in a state reached by any sequence of calls, a successful
    Allocate followed by a Delete of the new slice gives back the state the
    sweep of the Allocate call had left: the same registry and the same
    pool, with the resources the slice had taken reset.
    Here [Resource.reset] is as modelled above. *)
Theorem allocate_then_delete_restores (calls : list (datetime * call))
    (now : datetime) (slice_urn : string) (creds creds' : list datetime)
    (unbound : list string) (urn_type : string) :
  let self := run calls RAM.init in
  let swept := RAM.expire_slices now self in
  RAM._slices swept !! slice_urn = None →
  (length unbound ≤ length (RAM.resources swept (Some true)))%nat →
  urn_type ≠ "sliver" →
  RAM.Delete
    (RAM.Allocate now self slice_urn (Some creds) (Some unbound)).1
    [(slice_urn, Some urn_type)] (Some creds')
  = (swept, Return (RAM.successResult (VBool true))).
Proof.
  intros self swept Hfree Hlen Hty.
  assert (Hpool : NoDup (Resource.id <$> RAM._agg swept)).
  { subst swept. rewrite ids_expire_slices. apply run_pool_NoDup. }
  assert (Hsub : RAM.resources swept (Some true) `sublist_of` RAM._agg swept)
    by (unfold RAM.resources, RAM.catalog; apply sublist_filter).
  rewrite (Allocate_binds now self slice_urn creds unbound
             (run_pool_NoDup calls) Hfree Hlen).
  cbn [fst]. fold self. fold swept.
  rewrite (Delete_success _ slice_urn
             (Slice.mk slice_urn
                (RAM.clamp
                   (now + timedelta_seconds ALLOCATE_EXPIRATION_SECONDS)%N
                   creds)
                (Resource.id
                   <$> take (length unbound)
                         (RAM.resources swept (Some true))))
             urn_type [] creds').
  - cbn [RAM._slices RAM._agg Slice._resources].
    rewrite delete_insert_id by done.
    rewrite (bound_pool_reset (RAM._agg swept)
               (RAM.resources swept (Some true)) unbound Hpool Hsub
               (swept_available_fresh calls now)).
    by destruct swept.
  - cbn [RAM._slices]. apply lookup_insert_eq.
  - unfold slice_status. cbn [RAM._agg].
    apply (bound_pool_status (RAM._agg swept)
             (RAM.resources swept (Some true)) unbound Hpool Hsub
             (swept_available_fresh calls now)).
  - constructor.
  - exact Hty.
Qed.

(** Slice b takes resource 2 at 200 and is deleted again. *)
Lemma allocate_then_delete_restores_witness :
  RAM.Delete
    (RAM.Allocate 200%N
       (run [(100%N, CallAllocate "a" (Some [700%N]) (Some ["x"; "y"]))]
            RAM.init)
       "b" (Some [900%N]) (Some ["z"])).1
    [("b", Some "slice")] (Some [])
  = (RAM.expire_slices 200%N
       (run [(100%N, CallAllocate "a" (Some [700%N]) (Some ["x"; "y"]))]
            RAM.init),
     Return (RAM.successResult (VBool true))).
Proof.
  apply (allocate_then_delete_restores
           [(100%N, CallAllocate "a" (Some [700%N]) (Some ["x"; "y"]))]
           200%N "b" [900%N] [] ["z"] "slice").
  - vm_compute; reflexivity.
  - vm_compute; lia.
  - discriminate.
Defined.

(** ** The lifetime of an allocation *)

(** X19: in a state reached by any sequence of calls, the slice a
    successful Allocate has registered is kept, as it is, by every later
    sweep made at or before its expiration, and removed by every sweep
    made after it. *)
Theorem allocation_lives_until_expiration (calls : list (datetime * call))
    (now : datetime) (slice_urn : string) (creds : list datetime)
    (unbound : list string) (later : datetime) :
  let self := run calls RAM.init in
  let swept := RAM.expire_slices now self in
  let available := RAM.resources swept (Some true) in
  let expiration :=
    RAM.clamp (now + timedelta_seconds ALLOCATE_EXPIRATION_SECONDS)%N creds in
  RAM._slices swept !! slice_urn = None →
  (length unbound ≤ length available)%nat →
  RAM._slices
    (RAM.expire_slices later
       (RAM.Allocate now self slice_urn (Some creds) (Some unbound)).1)
  !! slice_urn
  = if decide (expiration < later)%N then None
    else Some (Slice.mk slice_urn expiration
                 (Resource.id <$> take (length unbound) available)).
Proof.
  intros self swept available expiration Hfree Hlen.
  rewrite expire_slices_lookup.
  - rewrite (Allocate_binds now self slice_urn creds unbound
               (run_pool_NoDup calls) Hfree Hlen).
    cbn [fst RAM._slices]. by rewrite lookup_insert_eq.
  - apply consistent_keyed.
    apply (perform_consistent now
             (CallAllocate slice_urn (Some creds) (Some unbound)) self).
    apply (run_all_consistent calls RAM.init init_consistent).
Qed.

(** Slice a, allocated on the initial manager at 100 with a credential
    expiring at 700, is still there after the sweep at 700. *)
Lemma allocation_lives_until_expiration_witness :
  RAM._slices
    (RAM.expire_slices 700%N
       (RAM.Allocate 100%N (run [] RAM.init) "a" (Some [700%N])
          (Some ["x"; "y"])).1)
  !! "a"
  = if decide (700 < 700)%N then None
    else Some (Slice.mk "a" 700%N [0; 1]).
Proof.
  refine (allocation_lives_until_expiration [] 100%N "a" [700%N] ["x"; "y"]
            700%N _ _).
  - vm_compute; reflexivity.
  - vm_compute; lia.
Defined.

(** ** The configuration *)




(** ** Slices hold pool resources *)

Lemma expire_slices_sub (now : datetime) (self : RAM.t) (u : string)
    (s : Slice.t) :
  RAM._slices (RAM.expire_slices now self) !! u = Some s →
  RAM._slices self !! u = Some s.
Proof.
  rewrite expire_slices_unfold, release_all_slices, delete_all_lookup.
  by case_decide.
Qed.

Lemma perform_members_ok (now : datetime) (c : call) (self : RAM.t) :
  NoDup (Resource.id <$> RAM._agg self) →
  members_ok (Resource.id <$> RAM._agg self) self →
  members_ok (Resource.id <$> RAM._agg self) (perform now c self).1.
Proof.
  intros Hpool Hok.
  assert (Hswept : members_ok (Resource.id <$> RAM._agg self)
                     (RAM.expire_slices now self)).
  { intros u s Hu. apply (Hok u s). by apply (expire_slices_sub now). }
  destruct c as [|creds options|slice_urn creds rspec|urns creds
                 |slice_urn creds|slice_urn creds t|slice_urn creds];
    cbn [perform].
  - exact Hswept.
  - unfold RAM.ListResources. cbv zeta. split_outcome; exact Hswept.
  - destruct (Allocate_state now self slice_urn creds rspec Hpool)
      as [->|(cs & unbound & _ & _ & _ & _ & ->)]; [done |].
    intros u s Hu. cbn [RAM._slices] in Hu.
    apply lookup_insert_Some in Hu as [[_ <-]|[_ Hu]];
      [| exact (Hswept u s Hu)].
    cbn [Slice._resources].
    assert (Hsub : take (length unbound)
                     (RAM.resources (RAM.expire_slices now self) (Some true))
                   `sublist_of` RAM._agg (RAM.expire_slices now self))
      by apply available_sublist.
    rewrite <- (ids_expire_slices now self) in Hpool |- *. split.
    + eapply sublist_NoDup; [exact Hpool |]. by apply fmap_sublist.
    + intros i Hi. eapply elem_of_sublist; [exact Hi |].
      by apply fmap_sublist.
  - unfold RAM.Delete. split_outcome; try exact Hok. cbn [fst].
    intros u' s' Hu. cbn in Hu. apply lookup_delete_Some in Hu as [_ Hu].
    exact (Hok u' s' Hu).
  - unfold RAM.SliverStatus. split_outcome; exact Hok.
  - destruct (RenewSliver_cases self slice_urn creds t)
      as [->|(sliver & Hreg & ->)]; [done |].
    intros u s Hu. cbn [RAM._slices] in Hu.
    apply lookup_insert_Some in Hu as [[<- <-]|[_ Hu]];
      [| exact (Hok u s Hu)].
    cbn. exact (Hok slice_urn sliver Hreg).
  - destruct (Shutdown_cases self slice_urn creds) as [->| ->]; exact Hok.
Qed.

(** X21: after any sequence of calls of any operation on the initial
    manager, every registered slice holds each of its resources once, and
    holds only resources 0, 1 and 2 of the pool. *)
Theorem slices_hold_pool_resources (calls : list (datetime * call))
    (u : string) (s : Slice.t) :
  RAM._slices (run calls RAM.init) !! u = Some s →
  NoDup (Slice._resources s)
  ∧ ∀ i, i ∈ Slice._resources s → i ∈ [0; 1; 2].
Proof.
  assert (H : ∀ self, NoDup (Resource.id <$> RAM._agg self) →
                members_ok (Resource.id <$> RAM._agg self) self →
                members_ok (Resource.id <$> RAM._agg self) (run calls self)).
  { unfold run. induction calls as [|[now c] calls IH];
      intros self Hpool Hok; [done |].
    cbn [foldl]. rewrite <- (ids_perform now c self). apply IH.
    - by rewrite ids_perform.
    - rewrite ids_perform. by apply perform_members_ok. }
  apply (H RAM.init).
  - apply (run_pool_NoDup []).
  - intros u' s' Hu'. cbn in Hu'. by rewrite lookup_empty in Hu'.
Qed.

(** Slice a after one Allocate holds resources 0 and 1. *)
Lemma slices_hold_pool_resources_witness :
  NoDup [0; 1] ∧ ∀ i, i ∈ [0; 1] → i ∈ [0; 1; 2].
Proof.
  apply (slices_hold_pool_resources
           [(100%N, CallAllocate "a" (Some [700%N]) (Some ["x"; "y"]))]
           "a" (Slice.mk "a" 700%N [0; 1])).
  vm_compute; reflexivity.
Defined.

(** ** Exceptions behind the public operations *)

